(** * A distributed open-addressing hash table (hash_map.hpp)

    Shallow embedding of [struct HashMap] and of its operations, followed
    by the properties of the table.

    - Machine integers are kept as [Z] with their wrap-around written out:
      [uint64_t]/[size_t] through [to_u64], [int] through [to_int].
    - The per-rank segments behind [data_ptrs] and [used_ptrs] are lists of
      lists; an access outside a segment is undefined behaviour and ends
      the run with [Undefined OutOfSegment].
    - Remote operations return a future.  Every operation leaves a trace of
      the remote operations it issued and of the futures it waited on.
    - Calls are taken one after the other: the atomic fetch-add orders the
      requests of a slot, whoever issues them.
    - [kmer_t.hpp] is not part of the sources: the key type, its hash and
      the payload are the fields of the class [Kmer]. *)

From stdpp Require Import base numbers option list.

Local Open Scope Z_scope.

(** ** Fixed-width integers *)

(** Conversion to [uint64_t] / [size_t]. *)
Definition to_u64 (z : Z) : Z := z mod 2 ^ 64.

(** Conversion to [int] (32 bits, two's complement). *)
Definition to_int (z : Z) : Z := (z + 2 ^ 31) mod 2 ^ 32 - 2 ^ 31.

Definition INT_MAX : Z := 2 ^ 31 - 1.

(** ** The k-mer interface (kmer_t.hpp) *)

(** Modelled from the spec: [kmer_t.hpp] is missing.  A key is a
    fixed-width value with equality and a deterministic 64-bit hash; a
    record is a key with a payload; [blank_pair] is the record a freshly
    allocated, never written slot holds. *)
Class Kmer := {
  pkmer_t : Type;
  pkmer_eq_dec :: EqDecision pkmer_t;
  pkmer_hash : pkmer_t → Z;
  ext_t : Type;
  blank_kmer : pkmer_t;
  blank_ext : ext_t
}.

Section HashMap.

Context `{Kmer}.

Record kmer_pair := { kmer : pkmer_t; fb_ext : ext_t }.

(** Modelled from the spec: a record hashes as its key does. *)
Definition kmer_pair_hash (p : kmer_pair) : Z := pkmer_hash (kmer p).

Definition blank_pair : kmer_pair := {| kmer := blank_kmer; fb_ext := blank_ext |}.

(** ** The table *)

Record SlotLoc := { rank : Z; offset : Z }.

(** [data_ptrs] and [used_ptrs] hold one global pointer per rank; each
    points to that rank's segment, which the table shares between all
    participants.  The atomic domain [atomic_flags] has no state. *)
Record HashMap := {
  data_ptrs : list (list kmer_pair);
  used_ptrs : list (list Z);
  slots_per_rank : Z;
  my_size : Z
}.

Definition size (h : HashMap) : Z := my_size h.

(** ** Remote operations, futures and traces *)

Inductive rma :=
  | FetchAdd (loc : SlotLoc) (prev : Z)
  | Load (loc : SlotLoc) (v : Z)
  | Rput (loc : SlotLoc) (v : kmer_pair)
  | Rget (loc : SlotLoc) (v : kmer_pair).

Inductive event :=
  | Issue (op : rma)
  | Await (op : rma).

Definition trace := list event.

(** A future remembers the operation it completes. *)
Record future (A : Type) := { fut_op : rma; fut_result : A }.
Arguments fut_op {A} _.
Arguments fut_result {A} _.

Inductive fault := DivisionByZero | OutOfSegment.

Inductive result (A : Type) :=
  | Done (a : A) (h : HashMap) (tr : trace)
  | Undefined (f : fault) (tr : trace).
Arguments Done {A} _ _ _.
Arguments Undefined {A} _ _.

(** Table operations: state passing, with a trace and undefined behaviour. *)
Definition M (A : Type) : Type := HashMap → result A.

Definition ret {A} (a : A) : M A := λ h, Done a h [].

Definition bind {A B} (m : M A) (k : A → M B) : M B := λ h,
  match m h with
  | Done a h1 tr1 =>
      match k a h1 with
      | Done b h2 tr2 => Done b h2 (tr1 ++ tr2)
      | Undefined f tr2 => Undefined f (tr1 ++ tr2)
      end
  | Undefined f tr1 => Undefined f tr1
  end.

Notation "x <- m ;; k" := (bind m (λ x, k))
  (at level 100, m at next level, right associativity).
Notation "m ;;; k" := (bind m (λ _, k))
  (at level 100, right associativity).

(** [p + off] on a segment table: defined inside rank [rank loc]'s segment only. *)
Definition cell {T} (ptrs : list (list T)) (loc : SlotLoc) : option T :=
  if bool_decide (0 ≤ rank loc ∧ 0 ≤ offset loc)
  then seg ← ptrs !! Z.to_nat (rank loc); seg !! Z.to_nat (offset loc)
  else None.

Definition store {T} (ptrs : list (list T)) (loc : SlotLoc) (v : T) : list (list T) :=
  alter (λ seg, <[Z.to_nat (offset loc) := v]> seg) (Z.to_nat (rank loc)) ptrs.

Definition set_used (h : HashMap) (u : list (list Z)) : HashMap :=
  {| data_ptrs := data_ptrs h; used_ptrs := u;
     slots_per_rank := slots_per_rank h; my_size := my_size h |}.

Definition set_data (h : HashMap) (d : list (list kmer_pair)) : HashMap :=
  {| data_ptrs := d; used_ptrs := used_ptrs h;
     slots_per_rank := slots_per_rank h; my_size := my_size h |}.

(** [atomic_flags.fetch_add(ptr, delta, relaxed)] on an [int]: the sum
    wraps around, as atomic arithmetic does. *)
Definition fetch_add (loc : SlotLoc) (delta : Z) : M (future Z) := λ h,
  match cell (used_ptrs h) loc with
  | Some prev =>
      Done {| fut_op := FetchAdd loc prev; fut_result := prev |}
           (set_used h (store (used_ptrs h) loc (to_int (prev + delta))))
           [Issue (FetchAdd loc prev)]
  | None => Undefined OutOfSegment []
  end.

(** [atomic_flags.load(ptr, relaxed)] *)
Definition atomic_load (loc : SlotLoc) : M (future Z) := λ h,
  match cell (used_ptrs h) loc with
  | Some v => Done {| fut_op := Load loc v; fut_result := v |} h [Issue (Load loc v)]
  | None => Undefined OutOfSegment []
  end.

(** [upcxx::rput(v, ptr)].  The write is applied when it is issued; what
    the caller does with the future shows in the trace only. *)
Definition rput (v : kmer_pair) (loc : SlotLoc) : M (future unit) := λ h,
  match cell (data_ptrs h) loc with
  | Some _ =>
      Done {| fut_op := Rput loc v; fut_result := tt |}
           (set_data h (store (data_ptrs h) loc v))
           [Issue (Rput loc v)]
  | None => Undefined OutOfSegment []
  end.

(** [upcxx::rget(ptr)] *)
Definition rget (loc : SlotLoc) : M (future kmer_pair) := λ h,
  match cell (data_ptrs h) loc with
  | Some v => Done {| fut_op := Rget loc v; fut_result := v |} h [Issue (Rget loc v)]
  | None => Undefined OutOfSegment []
  end.

(** [f.wait()] *)
Definition wait {A} (f : future A) : M A := λ h,
  Done (fut_result f) h [Await (fut_op f)].

(** ** Construction *)

(** [upcxx::new_array<T>(n)]: [n] is converted to [size_t]; a negative
    [int] becomes a count no allocation satisfies.  The segments start
    zero-filled: the occupancy counters at 0 and the records blank. *)
Definition new_array {T} (n : Z) (x : T) : option (list T) :=
  if bool_decide (n < 0) then None else Some (replicate (Z.to_nat n) x).

(** [HashMap::HashMap(size)] on [ranks = upcxx::rank_n()] participants. *)
Definition HashMap_new (ranks size : Z) : option HashMap :=
  let spr := to_int (to_u64 (size / to_u64 ranks + 1)) in
  data ← new_array spr blank_pair;
  used ← new_array spr 0;
  Some {| data_ptrs := replicate (Z.to_nat ranks) data;
          used_ptrs := replicate (Z.to_nat ranks) used;
          slots_per_rank := spr;
          my_size := size |}.

(** ** Helper functions *)

(** [HashMap::locate_slot]: [slots_per_rank] is converted to [uint64_t],
    quotient and remainder are narrowed to [int]. *)
Definition locate_slot (h : HashMap) (slot : Z) : option SlotLoc :=
  let d := to_u64 (slots_per_rank h) in
  if bool_decide (d = 0) then None
  else Some {| rank := to_int (slot / d); offset := to_int (slot mod d) |}.

Definition locate (slot : Z) : M SlotLoc := λ h,
  match locate_slot h slot with
  | Some loc => Done loc h []
  | None => Undefined DivisionByZero []
  end.

(** [HashMap::slot_used] *)
Definition slot_used (slot : Z) : M bool :=
  loc <- locate slot ;;
  f <- atomic_load loc ;;
  v <- wait f ;;
  ret (negb (bool_decide (v = 0))).

(** [HashMap::write_slot]: the future of [rput] is dropped. *)
Definition write_slot (slot : Z) (kmer : kmer_pair) : M unit :=
  loc <- locate slot ;;
  _ <- rput kmer loc ;;
  ret tt.

(** [HashMap::read_slot] *)
Definition read_slot (slot : Z) : M kmer_pair :=
  loc <- locate slot ;;
  f <- rget loc ;;
  wait f.

(** [HashMap::request_slot]: returns the future of the fetch-add. *)
Definition request_slot (slot : Z) : M (future Z) :=
  loc <- locate slot ;;
  fetch_add loc 1.

(** [x % size()] on [uint64_t]. *)
Definition umod (x : Z) : M Z := λ h,
  if bool_decide (size h = 0) then Undefined DivisionByZero []
  else Done (x mod size h) h [].

(** ** insert and find *)

(** The [for] loop of [HashMap::insert]; [n] is the number of iterations
    left, [size() - probe]. *)
Fixpoint insert_loop (kmer : kmer_pair) (hash : Z) (n : nat) (probe : Z) : M bool :=
  match n with
  | O => ret false
  | S n' =>
      slot <- umod (to_u64 (hash + probe)) ;;
      f <- request_slot slot ;;
      prev <- wait f ;;
      if bool_decide (prev = 0) then
        write_slot slot kmer ;;;
        ret true
      else insert_loop kmer hash n' (probe + 1)
  end.

(** [HashMap::insert] *)
Definition insert (kmer : kmer_pair) : M bool := λ h,
  let hash := to_u64 (kmer_pair_hash kmer) in
  insert_loop kmer hash (Z.to_nat (size h)) 0 h.

(** The [do ... while] loop of [HashMap::find]: the body runs first; [n]
    is the number of iterations the loop test still allows,
    [size() - probe] after the increment.  [val_kmer] is assigned in every
    iteration and returned with the flag. *)
Fixpoint find_loop (key_kmer : pkmer_t) (hash : Z) (n : nat) (probe : Z)
  : M (bool * kmer_pair) :=
  slot <- umod (to_u64 (hash + probe)) ;;
  val_kmer <- read_slot slot ;;
  if bool_decide (kmer val_kmer = key_kmer) then ret (true, val_kmer)
  else
    match n with
    | O => ret (false, val_kmer)
    | S n' => find_loop key_kmer hash n' (probe + 1)
    end.

(** [HashMap::find] *)
Definition find (key_kmer : pkmer_t) : M (bool * kmer_pair) := λ h,
  let hash := to_u64 (pkmer_hash key_kmer) in
  find_loop key_kmer hash (Z.to_nat (size h - 1)) 0 h.

(** ** Reading the table by logical slot *)

(** The slot [insert] and [find] compute for a probe. *)
Definition probe_slot (h : HashMap) (hash probe : Z) : Z :=
  to_u64 (hash + probe) mod size h.

(** The record a logical slot holds. *)
Definition data_at (h : HashMap) (slot : Z) : option kmer_pair :=
  loc ← locate_slot h slot; cell (data_ptrs h) loc.

(** A table whose segments are the ones the constructor allocates and
    whose every logical slot lies in one of them. *)
Record wf_table (h : HashMap) : Prop := {
  wf_size : 0 ≤ my_size h < 2 ^ 64;
  wf_spr : 0 < slots_per_rank h ≤ INT_MAX;
  wf_ranks : Z.of_nat (length (used_ptrs h)) ≤ INT_MAX;
  wf_data_len : length (data_ptrs h) = length (used_ptrs h);
  wf_used_seg : Forall (λ seg, Z.of_nat (length seg) = slots_per_rank h) (used_ptrs h);
  wf_data_seg : Forall (λ seg, Z.of_nat (length seg) = slots_per_rank h) (data_ptrs h);
  wf_cover : my_size h < Z.of_nat (length (used_ptrs h)) * slots_per_rank h
}.

(** [loc] lies inside the segment of one of the table's ranks. *)
Definition in_segment (h : HashMap) (loc : SlotLoc) : Prop :=
  0 ≤ rank loc < Z.of_nat (length (used_ptrs h)) ∧
  0 ≤ offset loc < slots_per_rank h.

(** ** What a trace does to the table *)

#[global] Instance SlotLoc_eq_dec : EqDecision SlotLoc.
Proof. solve_decision. Defined.

(** The effect of one event on the shared segments. *)
Inductive effect : event → HashMap → HashMap → Prop :=
  | effect_fetch_add loc prev h :
      cell (used_ptrs h) loc = Some prev →
      effect (Issue (FetchAdd loc prev)) h
             (set_used h (store (used_ptrs h) loc (to_int (prev + 1))))
  | effect_load loc v h :
      cell (used_ptrs h) loc = Some v → effect (Issue (Load loc v)) h h
  | effect_rput loc v h :
      is_Some (cell (data_ptrs h) loc) →
      effect (Issue (Rput loc v)) h (set_data h (store (data_ptrs h) loc v))
  | effect_rget loc v h :
      cell (data_ptrs h) loc = Some v → effect (Issue (Rget loc v)) h h
  | effect_await op h : effect (Await op) h h.

Inductive replays : HashMap → trace → HashMap → Prop :=
  | replays_nil h : replays h [] h
  | replays_cons e tr h1 h2 h3 :
      effect e h1 h2 → replays h2 tr h3 → replays h1 (e :: tr) h3.

(** An operation whose trace accounts for all it does to the table. *)
Definition traced {A} (m : M A) : Prop :=
  ∀ h a h' tr, m h = Done a h' tr → replays h tr h'.

Definition is_fetch_add_on (loc : SlotLoc) (e : event) : bool :=
  match e with
  | Issue (FetchAdd l _) => bool_decide (l = loc)
  | _ => false
  end.

(** Number of fetch-adds a trace issues on [loc]. *)
Fixpoint fetch_adds_on (loc : SlotLoc) (tr : trace) : Z :=
  match tr with
  | [] => 0
  | e :: tr' => (if is_fetch_add_on loc e then 1 else 0) + fetch_adds_on loc tr'
  end.

(** The fetch-adds of a trace, in order: location and previous value. *)
Fixpoint fetch_adds (tr : trace) : list (SlotLoc * Z) :=
  match tr with
  | [] => []
  | Issue (FetchAdd loc prev) :: tr' => (loc, prev) :: fetch_adds tr'
  | _ :: tr' => fetch_adds tr'
  end.

(** The remote writes of a trace, in order. *)
Fixpoint rputs (tr : trace) : list (SlotLoc * kmer_pair) :=
  match tr with
  | [] => []
  | Issue (Rput loc v) :: tr' => (loc, v) :: rputs tr'
  | _ :: tr' => rputs tr'
  end.

(** The remote reads of a trace, in order. *)
Fixpoint rgets (tr : trace) : list (SlotLoc * kmer_pair) :=
  match tr with
  | [] => []
  | Issue (Rget loc v) :: tr' => (loc, v) :: rgets tr'
  | _ :: tr' => rgets tr'
  end.

(** ** Sequences of operations *)

Inductive op :=
  | Insert (kmer : kmer_pair)
  | Find (key_kmer : pkmer_t)
  | RequestSlot (slot : Z).

(** One call; [RequestSlot] is [request_slot(slot).wait()]. *)
Definition exec (o : op) : M unit :=
  match o with
  | Insert kmer => _ <- insert kmer ;; ret tt
  | Find key_kmer => _ <- find key_kmer ;; ret tt
  | RequestSlot slot => f <- request_slot slot ;; _ <- wait f ;; ret tt
  end.

(** [history h0 tr h]: a sequence of calls takes the table from [h0] to
    [h], and [tr] is all they did. *)
Inductive history (h0 : HashMap) : trace → HashMap → Prop :=
  | history_nil : history h0 [] h0
  | history_step tr h o tr' h' :
      history h0 tr h → exec o h = Done tt h' tr' → history h0 (tr ++ tr') h'.

Definition reachable (h0 h : HashMap) : Prop := ∃ tr, history h0 tr h.

(** The location a remote operation addresses. *)
Definition rma_loc (o : rma) : SlotLoc :=
  match o with
  | FetchAdd loc _ | Load loc _ | Rput loc _ | Rget loc _ => loc
  end.

(** Every remote access of the trace stays inside a segment. *)
Definition accesses_in_segment (h : HashMap) (tr : trace) : Prop :=
  ∀ o, Issue o ∈ tr → in_segment h (rma_loc o).

(** ** Shapes of traces *)

(** The events of one probe of [insert]: the fetch-add on [lp.1], which
    returns [lp.2], and the wait on its future. *)
Definition probe_events (lp : SlotLoc * Z) : trace :=
  [Issue (FetchAdd lp.1 lp.2); Await (FetchAdd lp.1 lp.2)].

(** The events of one probe of [find]. *)
Definition read_events (lv : SlotLoc * kmer_pair) : trace :=
  [Issue (Rget lv.1 lv.2); Await (Rget lv.1 lv.2)].

(** Every operation issued is waited on before anything else is issued. *)
Inductive blocking : trace → Prop :=
  | blocking_nil : blocking []
  | blocking_cons o tr : blocking tr → blocking (Issue o :: Await o :: tr).

(** ** Repeated requests of one slot *)

(** [k] calls of [request_slot(slot).wait()] in a row. *)
Definition request_times (slot : Z) (k : N) : M unit :=
  N.iter k (λ m, m ;;; exec (RequestSlot slot)) (ret tt).

(** The call of [request_slot(slot).wait()] that comes after [k] earlier
    ones: its result is the previous value that call receives. *)
Definition kth_request (slot : Z) (k : N) : M Z :=
  request_times slot k ;;; (f <- request_slot slot ;; wait f).

(** Every remote write comes right after a fetch-add on the same location
    that returned 0 and was waited on. *)
Inductive claimed_writes : trace → Prop :=
  | claimed_nil : claimed_writes []
  | claimed_put loc v tr :
      claimed_writes tr →
      claimed_writes (Issue (FetchAdd loc 0) :: Await (FetchAdd loc 0) ::
                      Issue (Rput loc v) :: tr)
  | claimed_other e tr :
      (∀ loc v, e ≠ Issue (Rput loc v)) → claimed_writes tr → claimed_writes (e :: tr).

(** ** The insert phase *)

(** One [insert] per record, in order. *)
Fixpoint insert_all (kmers : list kmer_pair) : M (list bool) :=
  match kmers with
  | [] => ret []
  | kmer :: rest =>
      b <- insert kmer ;;
      bs <- insert_all rest ;;
      ret (b :: bs)
  end.

(** [kmer] sits in a claimed slot of its own probe sequence. *)
Definition stored (h : HashMap) (kmer : kmer_pair) : Prop :=
  ∃ probe loc c,
    0 ≤ probe < size h ∧
    locate_slot h (probe_slot h (to_u64 (kmer_pair_hash kmer)) probe) = Some loc ∧
    cell (data_ptrs h) loc = Some kmer ∧
    cell (used_ptrs h) loc = Some c ∧ c ≠ 0.

(** The table after [k] inserts: no counter exceeds [2 * k], and at most
    [k] slots are claimed. *)
Record insert_phase (k : Z) (h : HashMap) : Prop := {
  phase_wf : wf_table h;
  phase_counters : ∀ loc c, cell (used_ptrs h) loc = Some c → 0 ≤ c ≤ 2 * k;
  phase_claimed :
    ∃ cl : list SlotLoc,
      Z.of_nat (length cl) ≤ k ∧
      ∀ loc c, cell (used_ptrs h) loc = Some c → c ≠ 0 → loc ∈ cl
}.

End HashMap.

Arguments Done {_ _} _ _ _.
Arguments Undefined {_ _} _ _.
Arguments fut_op {_ _} _.
Arguments fut_result {_ _} _.

(** ** A concrete k-mer type for examples: integer keys hashing to themselves *)

Definition ZKmer : Kmer :=
  {| pkmer_t := Z; pkmer_hash := λ k, k; ext_t := Z; blank_kmer := 0; blank_ext := 0 |}.

(** The table the constructor returns; the empty record when it fails. *)
Definition table `{Kmer} (ranks capacity : Z) : HashMap :=
  default {| data_ptrs := []; used_ptrs := []; slots_per_rank := 0; my_size := 0 |}
          (HashMap_new ranks capacity).

(** A record over integer keys. *)
Definition zpair (k v : Z) : @kmer_pair ZKmer := @Build_kmer_pair ZKmer k v.

(** The table of one slot, on one rank, once [zpair 5 50] is inserted. *)
Definition full_table : @HashMap ZKmer :=
  @Build_HashMap ZKmer [[zpair 5 50; zpair 0 0]] [[1; 0]] 2 1.

(** The location of slot 0 and the trace of the insert that fills
    [full_table]. *)
Definition slot0_loc : SlotLoc := {| rank := 0; offset := 0 |}.

Definition first_insert : @trace ZKmer :=
  [Issue (FetchAdd slot0_loc 0); Await (FetchAdd slot0_loc 0);
   Issue (Rput slot0_loc (zpair 5 50))].

Section Properties.

Context `{Kmer}.

Local Notation "x <- m ;; k" := (bind m (λ x, k))
  (at level 100, m at next level, right associativity).

(** ** Fixed-width integers *)

Lemma to_u64_small z : 0 ≤ z < 2 ^ 64 → to_u64 z = z.
Proof. intros. unfold to_u64. by rewrite Z.mod_small. Qed.

Lemma to_u64_range z : 0 ≤ to_u64 z < 2 ^ 64.
Proof. unfold to_u64. apply Z.mod_pos_bound. lia. Qed.

Lemma to_int_small z : - 2 ^ 31 ≤ z < 2 ^ 31 → to_int z = z.
Proof. intros. unfold to_int. rewrite Z.mod_small; lia. Qed.

Lemma to_int_range z : - 2 ^ 31 ≤ to_int z < 2 ^ 31.
Proof.
  unfold to_int. pose proof (Z.mod_pos_bound (z + 2 ^ 31) (2 ^ 32)). lia.
Qed.

(** [to_int] is the identity modulo 2^32. *)
Lemma to_int_mod z : to_int z mod 2 ^ 32 = z mod 2 ^ 32.
Proof. unfold to_int. Z.div_mod_to_equations. lia. Qed.

Lemma to_int_zero z : to_int z = 0 ↔ z mod 2 ^ 32 = 0.
Proof. unfold to_int. Z.div_mod_to_equations. lia. Qed.

Lemma to_int_add_l a b : to_int (to_int a + b) = to_int (a + b).
Proof. unfold to_int. Z.div_mod_to_equations. lia. Qed.

(** ** The monad *)

Lemma bind_Done {A B} (m : M A) (k : A → M B) h b h' tr :
  bind m k h = Done b h' tr ↔
  ∃ a h1 tr1 tr2, m h = Done a h1 tr1 ∧ k a h1 = Done b h' tr2 ∧ tr = tr1 ++ tr2.
Proof.
  unfold bind. split.
  - destruct (m h) as [a h1 tr1|]; [|done].
    destruct (k a h1) as [b' h2 tr2|] eqn:Hk; [|done].
    intros [= -> -> <-]. by exists a, h1, tr1, tr2.
  - intros (a & h1 & tr1 & tr2 & -> & -> & ->). done.
Qed.

Lemma bind_Undefined {A B} (m : M A) (k : A → M B) h f tr :
  bind m k h = Undefined f tr ↔
  m h = Undefined f tr ∨
  ∃ a h1 tr1 tr2, m h = Done a h1 tr1 ∧ k a h1 = Undefined f tr2 ∧ tr = tr1 ++ tr2.
Proof.
  unfold bind. split.
  - destruct (m h) as [a h1 tr1|]; [|intros [= -> ->]; by left].
    destruct (k a h1) as [|f' tr2] eqn:Hk; [done|].
    intros [= -> <-]. right. by exists a, h1, tr1, tr2.
  - intros [->|(a & h1 & tr1 & tr2 & -> & -> & ->)]; done.
Qed.

(** Splits a hypothesis [bind m k h = Done ...] into its two steps. *)
Ltac bind_inv Hb :=
  let a := fresh "a" in let h1 := fresh "h" in
  let tr1 := fresh "tr" in let tr2 := fresh "tr" in
  let H1 := fresh "Hstep" in
  apply bind_Done in Hb as (a & h1 & tr1 & tr2 & H1 & Hb & ->).

(** ** Segments *)

Lemma SlotLoc_eq (l1 l2 : SlotLoc) :
  rank l1 = rank l2 → offset l1 = offset l2 → l1 = l2.
Proof. destruct l1, l2; simpl; congruence. Qed.

Lemma cell_Some {T} (p : list (list T)) loc v :
  cell p loc = Some v ↔
  0 ≤ rank loc ∧ 0 ≤ offset loc ∧
  ∃ seg, p !! Z.to_nat (rank loc) = Some seg ∧ seg !! Z.to_nat (offset loc) = Some v.
Proof.
  unfold cell. case_bool_decide as Hr.
  - destruct (p !! Z.to_nat (rank loc)) as [seg|]; simpl; split.
    + intros Hs. repeat split; [lia..|]. by exists seg.
    + by intros (_ & _ & seg' & [= <-] & Hs).
    + done.
    + by intros (_ & _ & seg' & ? & _).
  - split; [done|]. intros (? & ? & _). lia.
Qed.

Lemma cell_store_eq {T} (p : list (list T)) loc v :
  is_Some (cell p loc) → cell (store p loc v) loc = Some v.
Proof.
  intros [w (Hr & Ho & seg & Hseg & Hw)%cell_Some].
  apply cell_Some. repeat split; [done..|].
  exists (<[Z.to_nat (offset loc) := v]> seg). split.
  - unfold store. by rewrite list_lookup_alter_eq, Hseg.
  - apply list_lookup_insert_eq. by eapply lookup_lt_Some.
Qed.

Lemma cell_store_ne {T} (p : list (list T)) loc loc' v :
  is_Some (cell p loc) → loc' ≠ loc → cell (store p loc v) loc' = cell p loc'.
Proof.
  intros [w (Hr & Ho & seg & Hseg & Hw)%cell_Some] Hne.
  unfold cell. case_bool_decide as Hr'; [|done]. unfold store.
  destruct (decide (Z.to_nat (rank loc) = Z.to_nat (rank loc'))) as [Heq|Hd].
  - rewrite <- Heq, list_lookup_alter_eq, Hseg. simpl.
    apply list_lookup_insert_ne. intros Ho'.
    apply Hne, SlotLoc_eq; lia.
  - by rewrite list_lookup_alter_ne.
Qed.

Lemma store_length {T} (p : list (list T)) loc v : length (store p loc v) = length p.
Proof. apply length_alter. Qed.

Lemma store_segments {T} (p : list (list T)) loc v n :
  Forall (λ seg, Z.of_nat (length seg) = n) p →
  Forall (λ seg, Z.of_nat (length seg) = n) (store p loc v).
Proof.
  intros Hp. unfold store. apply Forall_alter; [done|].
  intros seg _ Hseg. by rewrite length_insert.
Qed.

(** ** Well-formed tables *)

Lemma wf_set_used h loc v :
  wf_table h → wf_table (set_used h (store (used_ptrs h) loc v)).
Proof.
  intros [Hs Hl Hr Hd Hu Hdd Hc]. split; simpl; try done.
  - by rewrite store_length.
  - by rewrite store_length.
  - by apply store_segments.
  - by rewrite store_length.
Qed.

Lemma wf_set_data h loc v :
  wf_table h → wf_table (set_data h (store (data_ptrs h) loc v)).
Proof.
  intros [Hs Hl Hr Hd Hu Hdd Hc]. split; simpl; try done.
  - by rewrite store_length.
  - by apply store_segments.
Qed.

Lemma in_segment_cell {T} (p : list (list T)) h loc :
  length p = length (used_ptrs h) →
  Forall (λ seg, Z.of_nat (length seg) = slots_per_rank h) p →
  in_segment h loc ↔ is_Some (cell p loc).
Proof.
  intros Hlen Hseg. unfold in_segment. split.
  - intros [[Hr0 Hr] [Ho0 Ho]].
    destruct (lookup_lt_is_Some_2 p (Z.to_nat (rank loc))) as [seg Hs]; [lia|].
    pose proof (Forall_lookup_1 _ _ _ _ Hseg Hs) as Hl. simpl in Hl.
    destruct (lookup_lt_is_Some_2 seg (Z.to_nat (offset loc))) as [v Hv]; [lia|].
    exists v. apply cell_Some. eauto.
  - intros [v (Hr0 & Ho0 & seg & Hs & Hv)%cell_Some].
    pose proof (Forall_lookup_1 _ _ _ _ Hseg Hs) as Hl. simpl in Hl.
    apply lookup_lt_Some in Hs, Hv. lia.
Qed.

Lemma in_segment_used h loc :
  wf_table h → in_segment h loc ↔ is_Some (cell (used_ptrs h) loc).
Proof. intros Hwf. apply in_segment_cell; [done|apply Hwf]. Qed.

Lemma in_segment_data h loc :
  wf_table h → in_segment h loc ↔ is_Some (cell (data_ptrs h) loc).
Proof. intros Hwf. apply in_segment_cell; apply Hwf. Qed.

(** On a well-formed table [locate_slot] is quotient and remainder by
    the segment size, and lands inside a segment. *)
Lemma locate_slot_wf h slot :
  wf_table h → 0 ≤ slot < my_size h →
  locate_slot h slot =
    Some {| rank := slot / slots_per_rank h; offset := slot mod slots_per_rank h |} ∧
  in_segment h {| rank := slot / slots_per_rank h; offset := slot mod slots_per_rank h |}.
Proof.
  intros Hwf Hslot. destruct Hwf as [Hs Hl Hr _ _ _ Hc].
  unfold INT_MAX in *.
  assert (Hq : 0 ≤ slot / slots_per_rank h < Z.of_nat (length (used_ptrs h))).
  { split; [apply Z.div_pos; lia|]. apply Z.div_lt_upper_bound; lia. }
  pose proof (Z.mod_pos_bound slot (slots_per_rank h)) as Hm.
  unfold locate_slot, in_segment. simpl.
  rewrite to_u64_small by lia.
  case_bool_decide; [lia|].
  rewrite !to_int_small by lia. split; [done|lia].
Qed.

Lemma locate_slot_inj h s1 s2 loc :
  wf_table h → 0 ≤ s1 < my_size h → 0 ≤ s2 < my_size h →
  locate_slot h s1 = Some loc → locate_slot h s2 = Some loc → s1 = s2.
Proof.
  intros Hwf H1 H2 Hl1 Hl2.
  destruct (locate_slot_wf h s1 Hwf H1) as [E1 _].
  destruct (locate_slot_wf h s2 Hwf H2) as [E2 _].
  rewrite E1 in Hl1. rewrite E2 in Hl2. rewrite <- Hl2 in Hl1.
  injection Hl1 as Hq Hm.
  pose proof (wf_spr h Hwf).
  rewrite (Z.div_mod s1 (slots_per_rank h)), (Z.div_mod s2 (slots_per_rank h)) by lia.
  by rewrite Hq, Hm.
Qed.

(** The constructor builds a well-formed table as long as the segment
    size fits an [int]. *)
Lemma HashMap_new_wf ranks size :
  1 ≤ ranks ≤ INT_MAX → 0 ≤ size → size / ranks + 1 ≤ INT_MAX →
  ∃ h, HashMap_new ranks size = Some h ∧ wf_table h ∧
       my_size h = size ∧ slots_per_rank h = size / ranks + 1 ∧
       Z.of_nat (length (used_ptrs h)) = ranks ∧
       used_ptrs h = replicate (Z.to_nat ranks) (replicate (Z.to_nat (size / ranks + 1)) 0) ∧
       data_ptrs h = replicate (Z.to_nat ranks) (replicate (Z.to_nat (size / ranks + 1)) blank_pair).
Proof.
  intros Hr Hs Hl. unfold INT_MAX in *.
  assert (0 ≤ size / ranks) by (apply Z.div_pos; lia).
  assert (size < ranks * (size / ranks + 1)).
  { pose proof (Z.mul_succ_div_gt size ranks). lia. }
  unfold HashMap_new, new_array.
  rewrite (to_u64_small ranks) by lia.
  rewrite to_u64_small by lia. rewrite to_int_small by lia.
  case_bool_decide; [lia|]. simpl.
  eexists. split; [done|]. repeat split; simpl;
    rewrite ?length_replicate; try (apply Forall_replicate; rewrite length_replicate);
    unfold INT_MAX; try nia; try lia.
Qed.

(** ** Traces account for the state *)

Lemma replays_app h1 h2 h3 tr1 tr2 :
  replays h1 tr1 h2 → replays h2 tr2 h3 → replays h1 (tr1 ++ tr2) h3.
Proof. induction 1; simpl; [done|]. intros. econstructor; eauto. Qed.

Lemma replays_app_inv h1 h3 tr1 tr2 :
  replays h1 (tr1 ++ tr2) h3 → ∃ h2, replays h1 tr1 h2 ∧ replays h2 tr2 h3.
Proof.
  revert h1. induction tr1 as [|e tr1 IH]; simpl; intros h1 Hr.
  - exists h1. split; [constructor|done].
  - inversion Hr as [|e' tr' h1' h2 h3' He Hr']; subst.
    destruct (IH _ Hr') as (h2' & ? & ?). exists h2'. split; [|done].
    econstructor; eauto.
Qed.

Lemma traced_ret {A} (a : A) : traced (ret a).
Proof. intros h a' h' tr [= <- <- <-]. constructor. Qed.

Lemma traced_bind {A B} (m : M A) (k : A → M B) :
  traced m → (∀ a, traced (k a)) → traced (bind m k).
Proof.
  intros Hm Hk h b h' tr Hb. bind_inv Hb.
  eapply replays_app; [by eapply Hm|by eapply Hk].
Qed.

Lemma traced_if {A} (b : bool) (m1 m2 : M A) :
  traced m1 → traced m2 → traced (if b then m1 else m2).
Proof. by destruct b. Qed.

Lemma traced_locate slot : traced (locate slot).
Proof.
  intros h a h' tr. unfold locate. destruct (locate_slot h slot); [|done].
  intros [= <- <- <-]. constructor.
Qed.

Lemma traced_umod x : traced (umod x).
Proof.
  intros h a h' tr. unfold umod. case_bool_decide; [done|].
  intros [= <- <- <-]. constructor.
Qed.

Lemma traced_wait {A} (f : future A) : traced (wait f).
Proof. intros h a h' tr [= <- <- <-]. repeat econstructor. Qed.

Lemma traced_fetch_add loc : traced (fetch_add loc 1).
Proof.
  intros h a h' tr. unfold fetch_add.
  destruct (cell (used_ptrs h) loc) as [prev|] eqn:Hc; [|done].
  intros [= <- <- <-]. repeat econstructor. done.
Qed.

Lemma traced_atomic_load loc : traced (atomic_load loc).
Proof.
  intros h a h' tr. unfold atomic_load.
  destruct (cell (used_ptrs h) loc) as [prev|] eqn:Hc; [|done].
  intros [= <- <- <-]. repeat econstructor. done.
Qed.

Lemma traced_rput v loc : traced (rput v loc).
Proof.
  intros h a h' tr. unfold rput.
  destruct (cell (data_ptrs h) loc) as [w|] eqn:Hc; [|done].
  intros [= <- <- <-]. repeat econstructor. by rewrite Hc.
Qed.

Lemma traced_rget loc : traced (rget loc).
Proof.
  intros h a h' tr. unfold rget.
  destruct (cell (data_ptrs h) loc) as [w|] eqn:Hc; [|done].
  intros [= <- <- <-]. repeat econstructor. done.
Qed.

Create HintDb traced discriminated.
#[local] Hint Resolve traced_ret traced_bind traced_if traced_locate traced_umod
  traced_wait traced_fetch_add traced_atomic_load traced_rput traced_rget : traced.

Lemma traced_request_slot slot : traced (request_slot slot).
Proof. unfold request_slot. auto with traced. Qed.

Lemma traced_write_slot slot v : traced (write_slot slot v).
Proof. unfold write_slot. auto with traced. Qed.

Lemma traced_read_slot slot : traced (read_slot slot).
Proof. unfold read_slot. auto with traced. Qed.

Lemma traced_slot_used slot : traced (slot_used slot).
Proof. unfold slot_used. auto 10 with traced. Qed.

#[local] Hint Resolve traced_request_slot traced_write_slot traced_read_slot
  traced_slot_used : traced.

Lemma traced_insert_loop kmer hash n probe : traced (insert_loop kmer hash n probe).
Proof.
  revert probe. induction n as [|n IH]; intros probe; simpl; auto 10 with traced.
Qed.

Lemma traced_insert kmer : traced (insert kmer).
Proof. intros h a h' tr. unfold insert. apply traced_insert_loop. Qed.

Lemma traced_find_loop key hash n probe : traced (find_loop key hash n probe).
Proof.
  revert probe. induction n as [|n IH]; intros probe; simpl; auto 10 with traced.
Qed.

Lemma traced_find key : traced (find key).
Proof. intros h a h' tr. unfold find. apply traced_find_loop. Qed.

#[local] Hint Resolve traced_insert traced_find : traced.

(** ** One step of each operation *)

Lemma umod_Done x h y h' tr :
  umod x h = Done y h' tr ↔ size h ≠ 0 ∧ y = x mod size h ∧ h' = h ∧ tr = [].
Proof.
  unfold umod. case_bool_decide; split.
  - done.
  - by intros [? _].
  - by intros [= <- <- <-].
  - by intros (_ & -> & -> & ->).
Qed.

Lemma request_slot_Done slot h f h' tr :
  request_slot slot h = Done f h' tr ↔
  ∃ loc prev,
    locate_slot h slot = Some loc ∧ cell (used_ptrs h) loc = Some prev ∧
    f = {| fut_op := FetchAdd loc prev; fut_result := prev |} ∧
    h' = set_used h (store (used_ptrs h) loc (to_int (prev + 1))) ∧
    tr = [Issue (FetchAdd loc prev)].
Proof.
  unfold request_slot, bind, locate, fetch_add.
  destruct (locate_slot h slot) as [loc|].
  - destruct (cell (used_ptrs h) loc) as [prev|] eqn:Hc; simpl; split.
    + intros [= <- <- <-]. by exists loc, prev.
    + intros (l & p & [= <-] & Hp & -> & -> & ->). by simplify_eq.
    + done.
    + intros (l & p & [= <-] & Hp & _). by simplify_eq.
  - split; [done|]. by intros (l & p & ? & _).
Qed.

Lemma write_slot_Done slot v h u h' tr :
  write_slot slot v h = Done u h' tr ↔
  ∃ loc,
    locate_slot h slot = Some loc ∧ is_Some (cell (data_ptrs h) loc) ∧
    h' = set_data h (store (data_ptrs h) loc v) ∧ tr = [Issue (Rput loc v)].
Proof.
  unfold write_slot, bind, locate, rput, ret.
  destruct (locate_slot h slot) as [loc|].
  - destruct (cell (data_ptrs h) loc) as [w|] eqn:Hc; simpl; split.
    + intros [= <- <- <-]. exists loc. by rewrite Hc.
    + intros (l & [= <-] & _ & -> & ->). by destruct u.
    + done.
    + intros (l & [= <-] & [? Hw] & _). by simplify_eq.
  - split; [done|]. by intros (l & ? & _).
Qed.

Lemma read_slot_Done slot h v h' tr :
  read_slot slot h = Done v h' tr ↔
  ∃ loc,
    locate_slot h slot = Some loc ∧ cell (data_ptrs h) loc = Some v ∧
    h' = h ∧ tr = [Issue (Rget loc v); Await (Rget loc v)].
Proof.
  unfold read_slot, bind, locate, rget, wait.
  destruct (locate_slot h slot) as [loc|].
  - destruct (cell (data_ptrs h) loc) as [w|] eqn:Hc; simpl; split.
    + intros [= <- <- <-]. by exists loc.
    + intros (l & [= <-] & Hw & -> & ->). by simplify_eq.
    + done.
    + intros (l & [= <-] & Hw & _). by simplify_eq.
  - split; [done|]. by intros (l & ? & _).
Qed.

(** The table's constants never change. *)
Lemma effect_frame e h h' :
  effect e h h' →
  slots_per_rank h' = slots_per_rank h ∧ my_size h' = my_size h ∧
  length (used_ptrs h') = length (used_ptrs h).
Proof. destruct 1; simpl; rewrite ?store_length; done. Qed.

Lemma replays_frame h tr h' :
  replays h tr h' →
  slots_per_rank h' = slots_per_rank h ∧ my_size h' = my_size h ∧
  length (used_ptrs h') = length (used_ptrs h).
Proof.
  induction 1 as [|e tr h1 h2 h3 He _ IH]; [done|].
  apply effect_frame in He. destruct IH as (-> & -> & ->). done.
Qed.

Lemma locate_slot_frame h h' slot :
  slots_per_rank h' = slots_per_rank h → locate_slot h' slot = locate_slot h slot.
Proof. unfold locate_slot. by intros ->. Qed.

Lemma probe_slot_frame h h' hash probe :
  my_size h' = my_size h → probe_slot h' hash probe = probe_slot h hash probe.
Proof. unfold probe_slot, size. by intros ->. Qed.

Lemma effect_wf e h h' : effect e h h' → wf_table h → wf_table h'.
Proof. destruct 1; auto using wf_set_used, wf_set_data. Qed.

Lemma replays_wf h tr h' : replays h tr h' → wf_table h → wf_table h'.
Proof. induction 1; eauto using effect_wf. Qed.

(** One iteration of the loop of [insert]. *)
Lemma insert_loop_S kmer hash n probe h b h' tr :
  insert_loop kmer hash (S n) probe h = Done b h' tr ↔
  size h ≠ 0 ∧
  ∃ loc prev,
    locate_slot h (probe_slot h hash probe) = Some loc ∧
    cell (used_ptrs h) loc = Some prev ∧
    let h1 := set_used h (store (used_ptrs h) loc (to_int (prev + 1))) in
    if decide (prev = 0) then
      is_Some (cell (data_ptrs h) loc) ∧ b = true ∧
      h' = set_data h1 (store (data_ptrs h) loc kmer) ∧
      tr = [Issue (FetchAdd loc prev); Await (FetchAdd loc prev); Issue (Rput loc kmer)]
    else
      ∃ tr', insert_loop kmer hash n (probe + 1) h1 = Done b h' tr' ∧
             tr = [Issue (FetchAdd loc prev); Await (FetchAdd loc prev)] ++ tr'.
Proof.
  simpl. unfold probe_slot. rewrite bind_Done. split.
  - intros (slot & h0 & tr1 & tr2 & (Hsz & -> & -> & ->)%umod_Done & Hb & ->).
    split; [done|].
    apply bind_Done in Hb
      as (f & h1 & tr1 & tr3 & (loc & prev & Hl & Hc & -> & -> & ->)%request_slot_Done & Hb & ->).
    exists loc, prev. split; [done|]. split; [done|].
    apply bind_Done in Hb as (p & h2 & tr1 & tr4 & [= <- <- <-] & Hb & ->).
    simpl in *. case_bool_decide as Hp; case_decide; try done.
    + apply bind_Done in Hb
        as (u & h3 & tr1 & tr5 & (loc' & Hl' & Hc' & -> & ->)%write_slot_Done & [= <- <- <-] & ->).
      rewrite (locate_slot_frame h) in Hl' by done. simplify_eq. done.
    + by exists tr4.
  - intros (Hsz & loc & prev & Hl & Hc & Hrest).
    exists (to_u64 (hash + probe) mod size h), h, [], tr.
    split; [by apply umod_Done|]. split; [|done].
    assert (Hreq : request_slot (to_u64 (hash + probe) mod size h) h =
      Done {| fut_op := FetchAdd loc prev; fut_result := prev |}
           (set_used h (store (used_ptrs h) loc (to_int (prev + 1))))
           [Issue (FetchAdd loc prev)]).
    { apply request_slot_Done. by exists loc, prev. }
    simpl in Hrest. case_decide as Hp.
    + destruct Hrest as (Hd & -> & -> & ->).
      apply bind_Done. eexists _, _, _, _. split; [exact Hreq|]. split; [|done].
      apply bind_Done. eexists _, _, _, _. split; [done|]. simpl.
      rewrite bool_decide_true by done. split; [|done].
      apply bind_Done. eexists tt, _, _, _. split.
      { apply write_slot_Done. exists loc. by rewrite (locate_slot_frame h). }
      done.
    + destruct Hrest as (tr' & Hr & ->).
      apply bind_Done. eexists _, _, _, _. split; [exact Hreq|]. split; [|done].
      apply bind_Done. eexists _, _, _, _. split; [done|]. simpl.
      rewrite bool_decide_false by done. done.
Qed.

(** One iteration of the loop of [find]. *)
Lemma find_loop_step key hash n probe h r v h' tr :
  find_loop key hash n probe h = Done (r, v) h' tr ↔
  size h ≠ 0 ∧
  ∃ loc val,
    locate_slot h (probe_slot h hash probe) = Some loc ∧
    cell (data_ptrs h) loc = Some val ∧
    let tr0 := [Issue (Rget loc val); Await (Rget loc val)] in
    if decide (kmer val = key) then r = true ∧ v = val ∧ h' = h ∧ tr = tr0
    else
      match n with
      | O => r = false ∧ v = val ∧ h' = h ∧ tr = tr0
      | S n' => ∃ tr', find_loop key hash n' (probe + 1) h = Done (r, v) h' tr' ∧
                       tr = tr0 ++ tr'
      end.
Proof.
  assert (Hunf : find_loop key hash n probe =
    (slot <- umod (to_u64 (hash + probe)) ;;
     val_kmer <- read_slot slot ;;
     if bool_decide (kmer val_kmer = key) then ret (true, val_kmer)
     else match n with
          | O => ret (false, val_kmer)
          | S n' => find_loop key hash n' (probe + 1)
          end)) by (by destruct n).
  rewrite Hunf. clear Hunf. unfold probe_slot. rewrite bind_Done. split.
  - intros (slot & h0 & tr1 & tr2 & (Hsz & -> & -> & ->)%umod_Done & Hb & ->).
    split; [done|].
    apply bind_Done in Hb
      as (val & h1 & tr1 & tr3 & (loc & Hl & Hc & -> & ->)%read_slot_Done & Hb & ->).
    exists loc, val. split; [done|]. split; [done|]. simpl.
    case_bool_decide; case_decide; try done.
    + by injection Hb as <- <- <- <-.
    + destruct n; [by injection Hb as <- <- <- <-|]. by exists tr3.
  - intros (Hsz & loc & val & Hl & Hc & Hrest).
    exists (to_u64 (hash + probe) mod size h), h, [], tr.
    split; [by apply umod_Done|]. split; [|done].
    assert (Hrd : read_slot (to_u64 (hash + probe) mod size h) h =
      Done val h [Issue (Rget loc val); Await (Rget loc val)]).
    { apply read_slot_Done. by exists loc. }
    simpl in Hrest. case_decide.
    + destruct Hrest as (-> & -> & -> & ->).
      apply bind_Done. eexists val, h, _, _. split; [exact Hrd|].
      by rewrite bool_decide_true.
    + destruct n.
      * destruct Hrest as (-> & -> & -> & ->).
        apply bind_Done. eexists val, h, _, _. split; [exact Hrd|].
        by rewrite bool_decide_false.
      * destruct Hrest as (tr' & ? & ->).
        apply bind_Done. eexists val, h, _, _. split; [exact Hrd|].
        by rewrite bool_decide_false.
Qed.

(** ** Totality on well-formed tables *)

Lemma probe_slot_range h hash probe :
  0 < size h → 0 ≤ probe_slot h hash probe < size h.
Proof. intros. unfold probe_slot. by apply Z.mod_pos_bound. Qed.

Lemma locate_slot_cells h slot :
  wf_table h → 0 ≤ slot < my_size h →
  ∃ loc, locate_slot h slot = Some loc ∧ in_segment h loc ∧
         is_Some (cell (used_ptrs h) loc) ∧ is_Some (cell (data_ptrs h) loc).
Proof.
  intros Hwf Hslot. destruct (locate_slot_wf h slot Hwf Hslot) as [Hloc Hin].
  eexists. split; [exact Hloc|]. split; [done|].
  split; [by apply in_segment_used|by apply in_segment_data].
Qed.

Lemma insert_loop_total kmer hash n probe h :
  wf_table h → n = O ∨ 0 < size h →
  ∃ b h' tr, insert_loop kmer hash n probe h = Done b h' tr.
Proof.
  revert probe h. induction n as [|n IH]; intros probe h Hwf Hn.
  { by exists false, h, []. }
  destruct Hn as [|Hsz]; [done|].
  pose proof (probe_slot_range h hash probe Hsz) as Hslot.
  destruct (locate_slot_cells h _ Hwf Hslot) as (loc & Hloc & Hin & [prev Hprev] & Hdata).
  destruct (decide (prev = 0)) as [Hp|Hp].
  - eexists true, _, _. apply insert_loop_S. split; [lia|].
    exists loc, prev. split; [exact Hloc|]. split; [exact Hprev|].
    simpl. rewrite decide_True by done. done.
  - destruct (IH (probe + 1) (set_used h (store (used_ptrs h) loc (to_int (prev + 1)))))
      as (b & h' & tr' & Hrec); [by apply wf_set_used|by right|].
    eexists b, h', _. apply insert_loop_S. split; [lia|].
    exists loc, prev. split; [exact Hloc|]. split; [exact Hprev|].
    simpl. rewrite decide_False by done. by exists tr'.
Qed.

Lemma insert_total kmer h :
  wf_table h → ∃ b h' tr, insert kmer h = Done b h' tr.
Proof.
  intros Hwf. unfold insert. apply insert_loop_total; [done|].
  pose proof (wf_size h Hwf). unfold size.
  destruct (decide (my_size h = 0)) as [->|]; [by left|right; lia].
Qed.

Lemma find_loop_total key hash n probe h :
  wf_table h → 0 < size h →
  ∃ r v tr, find_loop key hash n probe h = Done (r, v) h tr.
Proof.
  intros Hwf Hsz. revert probe. induction n as [|n IH]; intros probe.
  all: pose proof (probe_slot_range h hash probe Hsz) as Hslot.
  all: destruct (locate_slot_cells h _ Hwf Hslot) as (loc & Hloc & Hin & _ & [val Hval]).
  all: destruct (decide (kmer val = key)) as [Hk|Hk].
  - eexists true, val, _. apply find_loop_step. split; [lia|].
    exists loc, val. split; [exact Hloc|]. split; [exact Hval|].
    simpl. by rewrite decide_True.
  - eexists false, val, _. apply find_loop_step. split; [lia|].
    exists loc, val. split; [exact Hloc|]. split; [exact Hval|].
    simpl. by rewrite decide_False.
  - eexists true, val, _. apply find_loop_step. split; [lia|].
    exists loc, val. split; [exact Hloc|]. split; [exact Hval|].
    simpl. by rewrite decide_True.
  - destruct (IH (probe + 1)) as (r & v & tr' & Hrec).
    eexists r, v, _. apply find_loop_step. split; [lia|].
    exists loc, val. split; [exact Hloc|]. split; [exact Hval|].
    simpl. rewrite decide_False by done. by exists tr'.
Qed.

Lemma find_total key h :
  wf_table h → 0 < size h → ∃ r v tr, find key h = Done (r, v) h tr.
Proof. intros. unfold find. by apply find_loop_total. Qed.

(** ** Reachable tables *)

Lemma traced_exec o : traced (exec o).
Proof. destruct o; simpl; auto 10 with traced. Qed.

Lemma history_replays h0 tr h : history h0 tr h → replays h0 tr h.
Proof.
  induction 1 as [|tr h o tr' h' _ IH Hex]; [constructor|].
  eapply replays_app; [done|]. by eapply traced_exec.
Qed.

Lemma reachable_wf h0 h : wf_table h0 → reachable h0 h → wf_table h.
Proof. intros Hwf [tr Hh%history_replays]. by eapply replays_wf. Qed.

Lemma in_segment_frame h h' loc :
  slots_per_rank h' = slots_per_rank h →
  length (used_ptrs h') = length (used_ptrs h) →
  in_segment h' loc ↔ in_segment h loc.
Proof. unfold in_segment. by intros -> ->. Qed.

Lemma effect_in_segment e h h' o :
  wf_table h → effect e h h' → e = Issue o → in_segment h (rma_loc o).
Proof.
  intros Hwf He ->. inversion He; subst; simpl.
  - apply in_segment_used; eauto.
  - apply in_segment_used; eauto.
  - by apply in_segment_data.
  - apply in_segment_data; eauto.
Qed.

Lemma replays_in_segment h tr h' :
  wf_table h → replays h tr h' → accesses_in_segment h tr.
Proof.
  intros Hwf Hr. induction Hr as [|e tr h1 h2 h3 He Hr IH]; intros o Ho.
  - by apply elem_of_nil in Ho.
  - apply elem_of_cons in Ho as [<-|Ho].
    + by eapply effect_in_segment.
    + pose proof (effect_frame _ _ _ He) as (Hs & _ & Hlen).
      apply (in_segment_frame h1 h2); [done..|].
      apply IH; [by eapply effect_wf|done].
Qed.

(** ** The trace of insert *)

Lemma fetch_adds_app tr1 tr2 : fetch_adds (tr1 ++ tr2) = fetch_adds tr1 ++ fetch_adds tr2.
Proof.
  induction tr1 as [|[[]|] tr1 IH]; simpl; [done|..]; by rewrite ?IH.
Qed.

Lemma rputs_app tr1 tr2 : rputs (tr1 ++ tr2) = rputs tr1 ++ rputs tr2.
Proof.
  induction tr1 as [|[[]|] tr1 IH]; simpl; [done|..]; by rewrite ?IH.
Qed.

Lemma rgets_app tr1 tr2 : rgets (tr1 ++ tr2) = rgets tr1 ++ rgets tr2.
Proof.
  induction tr1 as [|[[]|] tr1 IH]; simpl; [done|..]; by rewrite ?IH.
Qed.

Lemma fetch_adds_on_app loc tr1 tr2 :
  fetch_adds_on loc (tr1 ++ tr2) = fetch_adds_on loc tr1 + fetch_adds_on loc tr2.
Proof. induction tr1 as [|e tr1 IH]; simpl; lia. Qed.

Lemma fetch_adds_on_nonneg loc tr : 0 ≤ fetch_adds_on loc tr.
Proof. induction tr as [|e tr IH]; simpl; [done|]. destruct (is_fetch_add_on loc e); lia. Qed.

Lemma fetch_adds_probes (ps : list (SlotLoc * Z)) : fetch_adds (ps ≫= probe_events) = ps.
Proof.
  induction ps as [|[l p] ps IH]; [done|].
  by rewrite bind_cons, fetch_adds_app, IH.
Qed.

Lemma rputs_probes (ps : list (SlotLoc * Z)) : rputs (ps ≫= probe_events) = [].
Proof.
  induction ps as [|[l p] ps IH]; [done|].
  by rewrite bind_cons, rputs_app, IH.
Qed.

Lemma blocking_probes (ps : list (SlotLoc * Z)) : blocking (ps ≫= probe_events).
Proof.
  induction ps as [|[l p] ps IH]; [constructor|].
  rewrite bind_cons. by constructor.
Qed.

Lemma blocking_reads (vs : list (SlotLoc * kmer_pair)) : blocking (vs ≫= read_events).
Proof.
  induction vs as [|[l p] vs IH]; [constructor|].
  rewrite bind_cons. by constructor.
Qed.

(** [insert] probes the slots of its probe sequence in order, passes the
    slots whose counter was not 0 and stops at the first fetch-add that
    returns 0, where it writes the record. *)
Lemma insert_loop_shape kmer hash n probe h b h' tr :
  insert_loop kmer hash n probe h = Done b h' tr →
  ∃ ps : list (SlotLoc * Z),
    (∀ i lp, ps !! i = Some lp →
       locate_slot h (probe_slot h hash (probe + Z.of_nat i)) = Some lp.1) ∧
    if b then
      ∃ ps0 loc, ps = ps0 ++ [(loc, 0)] ∧ Forall (λ lp, lp.2 ≠ 0) ps0 ∧
                 (length ps ≤ n)%nat ∧
                 tr = (ps ≫= probe_events) ++ [Issue (Rput loc kmer)]
    else
      length ps = n ∧ Forall (λ lp, lp.2 ≠ 0) ps ∧ tr = ps ≫= probe_events.
Proof.
  revert probe h tr. induction n as [|n IH]; intros probe h tr Hrun.
  { injection Hrun as <- <- <-. exists []. split; [by intros i lp; rewrite lookup_nil|done]. }
  apply insert_loop_S in Hrun as (Hsz & loc & prev & Hloc & Hprev & Hrest).
  simpl in Hrest. case_decide as Hp.
  - destruct Hrest as (_ & -> & -> & ->). subst prev.
    exists [(loc, 0)]. split.
    + intros [|i] lp; simpl; [|by rewrite lookup_nil].
      intros [= <-]. by rewrite Z.add_0_r.
    + exists [], loc. repeat split; simpl; [constructor|lia].
  - destruct Hrest as (tr' & Hrec & ->).
    apply IH in Hrec as (ps & Hlocs & Hshape).
    exists ((loc, prev) :: ps). split.
    + intros [|i] lp; simpl.
      * intros [= <-]. by rewrite Z.add_0_r.
      * intros Hi. apply Hlocs in Hi.
        rewrite (locate_slot_frame h), (probe_slot_frame h) in Hi by done.
        by replace (probe + Z.of_nat (S i)) with (probe + 1 + Z.of_nat i) by lia.
    + destruct b.
      * destruct Hshape as (ps0 & loc' & -> & Hnz & Hlen & ->).
        exists ((loc, prev) :: ps0), loc'. repeat split; simpl in *; [by constructor|lia].
      * destruct Hshape as (<- & Hnz & ->). repeat split; simpl; by constructor.
Qed.

(** ** The trace of find *)

(** [find] reads the slots of its probe sequence in order and stops at the
    first record with the key, or after [n + 1] reads. *)
Lemma find_loop_shape key hash n probe h r v h' tr :
  find_loop key hash n probe h = Done (r, v) h' tr →
  h' = h ∧
  ∃ (vs0 : list (SlotLoc * kmer_pair)) (loc : SlotLoc),
    tr = (vs0 ++ [(loc, v)]) ≫= read_events ∧
    (∀ i lv, (vs0 ++ [(loc, v)]) !! i = Some lv →
       locate_slot h (probe_slot h hash (probe + Z.of_nat i)) = Some lv.1 ∧
       cell (data_ptrs h) lv.1 = Some lv.2) ∧
    Forall (λ lv, kmer lv.2 ≠ key) vs0 ∧
    (length vs0 ≤ n)%nat ∧
    if r then kmer v = key else kmer v ≠ key ∧ length vs0 = n.
Proof.
  revert probe tr. induction n as [|n IH]; intros probe tr Hrun.
  all: apply find_loop_step in Hrun as (Hsz & loc & val & Hloc & Hval & Hrest).
  all: assert (Hone : ∀ (i : nat) (lv : SlotLoc * kmer_pair),
      ([] ++ [(loc, val)]) !! i = Some lv →
      locate_slot h (probe_slot h hash (probe + Z.of_nat i)) = Some lv.1 ∧
      cell (data_ptrs h) lv.1 = Some lv.2)
    by (intros [|i] lv; simpl; [|by rewrite lookup_nil];
        intros [= <-]; by rewrite Z.add_0_r).
  all: simpl in Hrest; case_decide as Hk.
  - destruct Hrest as (-> & -> & -> & ->). split; [done|].
    exists [], loc. split; [done|]. split; [exact Hone|].
    split; [constructor|]. split; [simpl; lia|done].
  - destruct Hrest as (-> & -> & -> & ->). split; [done|].
    exists [], loc. split; [done|]. split; [exact Hone|].
    split; [constructor|]. split; [simpl; lia|done].
  - destruct Hrest as (-> & -> & -> & ->). split; [done|].
    exists [], loc. split; [done|]. split; [exact Hone|].
    split; [constructor|]. split; [simpl; lia|done].
  - destruct Hrest as (tr' & Hrec & ->).
    apply IH in Hrec as (-> & vs0 & loc' & -> & Hlocs & Hne & Hlen & Hr).
    split; [done|]. exists ((loc, val) :: vs0), loc'. split; [done|]. split; [|split; [|split]].
    + intros [|i] lv; simpl.
      * intros [= <-]. by rewrite Z.add_0_r.
      * intros Hi. apply Hlocs in Hi.
        by replace (probe + Z.of_nat (S i)) with (probe + 1 + Z.of_nat i) by lia.
    + by constructor.
    + simpl. lia.
    + destruct r; [done|]. destruct Hr as [? <-]. done.
Qed.

(** ** What a trace does to the counters and to the records *)

Lemma replays_data_unchanged h tr h' :
  replays h tr h' → rputs tr = [] → data_ptrs h' = data_ptrs h.
Proof.
  induction 1 as [|e tr h1 h2 h3 He _ IH]; [done|].
  destruct He; simpl; try done. all: intros Hp; by rewrite IH.
Qed.

Lemma replays_used_unchanged h tr h' :
  replays h tr h' → fetch_adds tr = [] → used_ptrs h' = used_ptrs h.
Proof.
  induction 1 as [|e tr h1 h2 h3 He _ IH]; [done|].
  destruct He; simpl; try done. all: intros Hp; by rewrite IH.
Qed.

(** A counter advances by the number of fetch-adds on it, modulo 2^32. *)
Lemma replays_counter h tr h' loc c :
  replays h tr h' → cell (used_ptrs h) loc = Some c →
  cell (used_ptrs h') loc =
    Some (if decide (fetch_adds_on loc tr = 0) then c
          else to_int (c + fetch_adds_on loc tr)).
Proof.
  intros Hr. revert c. induction Hr as [|e tr h1 h2 h3 He _ IH]; intros c Hc; [done|].
  pose proof (fetch_adds_on_nonneg loc tr) as Hnn.
  destruct He as [l prev h Hl|l v h Hl|l v h Hl|l v h Hl|o h]; simpl.
  - case_bool_decide as Hll.
    + subst l. rewrite Hl in Hc. injection Hc as ->.
      rewrite (IH (to_int (c + 1))) by (simpl; apply cell_store_eq; eauto).
      f_equal. rewrite (decide_False (P := 1 + fetch_adds_on loc tr = 0)) by lia.
      case_decide as Hz.
      * by rewrite Hz, Z.add_0_r.
      * rewrite to_int_add_l. f_equal. lia.
    + rewrite (IH c) by (simpl; rewrite cell_store_ne; eauto).
      done.
  - by rewrite (IH c).
  - by rewrite (IH c).
  - by rewrite (IH c).
  - by rewrite (IH c).
Qed.

(** While every fetch-add returns a non-zero value, a counter at 0 is not
    touched. *)
Lemma replays_free_untouched h tr h' loc :
  replays h tr h' → Forall (λ lp : SlotLoc * Z, lp.2 ≠ 0) (fetch_adds tr) →
  cell (used_ptrs h) loc = Some 0 → fetch_adds_on loc tr = 0.
Proof.
  induction 1 as [|e tr h1 h2 h3 He _ IH]; [done|].
  intros Hnz Hc.
  destruct He as [l prev h Hl|l v h Hl|l v h Hl|l v h Hl|o h]; simpl in *; auto.
  apply Forall_cons in Hnz as [Hprev Hnz]. simpl in Hprev.
  case_bool_decide as Hll.
  - subst l. congruence.
  - rewrite IH; [done..|]. rewrite cell_store_ne; eauto.
Qed.

(** ** Tables built by the constructor *)

Lemma reachable_new ranks capacity h0 h :
  1 ≤ ranks ≤ INT_MAX → 0 ≤ capacity → capacity / ranks + 1 ≤ INT_MAX →
  HashMap_new ranks capacity = Some h0 → reachable h0 h →
  wf_table h0 ∧ wf_table h ∧ my_size h = capacity ∧ my_size h0 = capacity ∧
  Z.of_nat (length (used_ptrs h)) = ranks.
Proof.
  intros Hr Hs Hl Hnew Hreach.
  destruct (HashMap_new_wf ranks capacity Hr Hs Hl) as (h1 & Hnew' & Hwf0 & Hsz & _ & Hlen & _).
  rewrite Hnew in Hnew'. injection Hnew' as <-.
  pose proof (reachable_wf h0 h Hwf0 Hreach) as Hwf.
  destruct Hreach as [tr0 Hh%history_replays].
  destruct (replays_frame _ _ _ Hh) as (_ & Hsz' & Hlen').
  split; [done|]. split; [done|]. split; [congruence|]. split; [done|].
  by rewrite Hlen'.
Qed.

Lemma cell_replicate {T} n m (x v : T) loc :
  cell (replicate n (replicate m x)) loc = Some v → v = x.
Proof.
  intros (_ & _ & seg & Hseg & Hv)%cell_Some.
  apply lookup_replicate in Hseg as [-> _].
  by apply lookup_replicate in Hv as [-> _].
Qed.

Lemma new_cells ranks capacity h0 loc :
  HashMap_new ranks capacity = Some h0 →
  (∀ c, cell (used_ptrs h0) loc = Some c → c = 0) ∧
  (∀ v, cell (data_ptrs h0) loc = Some v → v = blank_pair).
Proof.
  unfold HashMap_new, new_array. case_bool_decide; [done|]. simpl.
  intros [= <-]. simpl. split; intros ?; apply cell_replicate.
Qed.

Lemma rgets_reads (vs : list (SlotLoc * kmer_pair)) : rgets (vs ≫= read_events) = vs.
Proof.
  induction vs as [|[l p] vs IH]; [done|].
  by rewrite bind_cons, rgets_app, IH.
Qed.

(** ** The table with no slots *)

Lemma find_size_zero key h : my_size h = 0 → find key h = Undefined DivisionByZero [].
Proof.
  intros Hz. unfold find, size. rewrite Hz. simpl.
  unfold bind, umod, size. by rewrite bool_decide_true.
Qed.

Lemma insert_size_zero kmer h : my_size h = 0 → insert kmer h = Done false h [].
Proof. intros Hz. unfold insert, size. by rewrite Hz. Qed.

(** C10: [find] needs a table of capacity at least 1.  With [size() = 0]
    its first iteration computes [(hash + 0) % size()], a division by zero,
    before the loop test is reached and before any slot is read, whereas
    [insert] returns [false] for every record, touching no slot. *)
Theorem find_requires_capacity (h : HashMap) :
  my_size h = 0 →
  (∀ key_kmer, find key_kmer h = Undefined DivisionByZero []) ∧
  (∀ kmer, insert kmer h = Done false h []).
Proof. intros Hz. split; intros; [by apply find_size_zero|by apply insert_size_zero]. Qed.

(** ** The partition map *)

(** C7, amended: as long as [size / ranks + 1] fits an [int], the
    constructor sets [slots_per_rank] to that value, once and from
    [(ranks, size)] alone, so that every participant holds the same one;
    [locate_slot] is then the pure map [slot ↦ (slot / L, slot % L)], and
    the segments together hold at least [size] slots. *)
Theorem partition_map (ranks capacity : Z) :
  1 ≤ ranks ≤ INT_MAX → 0 ≤ capacity → capacity / ranks + 1 ≤ INT_MAX →
  ∃ h, HashMap_new ranks capacity = Some h ∧
    (∀ h', HashMap_new ranks capacity = Some h' → slots_per_rank h' = slots_per_rank h) ∧
    slots_per_rank h = capacity / ranks + 1 ∧
    capacity ≤ ranks * slots_per_rank h ∧
    ∀ slot, 0 ≤ slot < capacity →
      locate_slot h slot =
        Some {| rank := slot / slots_per_rank h; offset := slot mod slots_per_rank h |} ∧
      locate slot h =
        Done {| rank := slot / slots_per_rank h; offset := slot mod slots_per_rank h |} h [].
Proof.
  intros Hr Hs Hl.
  destruct (HashMap_new_wf ranks capacity Hr Hs Hl) as (h & Hnew & Hwf & Hsz & Hspr & Hlen & _).
  exists h. split; [done|]. split; [by intros h'; rewrite Hnew; intros [= <-]|].
  split; [done|]. split.
  { pose proof (wf_cover h Hwf). rewrite Hlen, Hsz in *. lia. }
  intros slot Hslot. rewrite <- Hsz in Hslot.
  destruct (locate_slot_wf h slot Hwf Hslot) as [Hloc _].
  split; [done|]. unfold locate. by rewrite Hloc.
Qed.

(** C9, amended: on a table built with [capacity / ranks + 1] fitting an
    [int], and in every state reached from it, [locate_slot] sends each
    slot below [capacity] to a rank in [0, ranks) and an offset in
    [0, slots_per_rank); [insert] always returns and [find] returns when
    [capacity] is positive, and all their remote accesses stay inside a
    segment. *)
Theorem locate_slot_in_segment (ranks capacity : Z) (h0 h : HashMap) :
  1 ≤ ranks ≤ INT_MAX → 0 ≤ capacity → capacity / ranks + 1 ≤ INT_MAX →
  HashMap_new ranks capacity = Some h0 → reachable h0 h →
  (∀ slot, 0 ≤ slot < capacity →
     ∃ loc, locate_slot h slot = Some loc ∧
            0 ≤ rank loc < ranks ∧ 0 ≤ offset loc < slots_per_rank h) ∧
  (∀ kmer, ∃ b h' tr, insert kmer h = Done b h' tr ∧ accesses_in_segment h tr) ∧
  (∀ key_kmer, 0 < capacity →
     ∃ r h' tr, find key_kmer h = Done r h' tr ∧ accesses_in_segment h tr).
Proof.
  intros Hr Hs Hl Hnew Hreach.
  destruct (HashMap_new_wf ranks capacity Hr Hs Hl) as (h1 & Hnew' & Hwf0 & Hsz & _ & Hlen & _).
  rewrite Hnew in Hnew'. injection Hnew' as <-.
  pose proof (reachable_wf h0 h Hwf0 Hreach) as Hwf.
  destruct Hreach as [tr0 Hh%history_replays].
  destruct (replays_frame _ _ _ Hh) as (_ & Hsz' & Hlen').
  split; [|split].
  - intros slot Hslot.
    destruct (locate_slot_cells h slot Hwf) as (loc & Hloc & [Hrk Hoff] & _); [lia|].
    exists loc. split; [done|]. split; [lia|done].
  - intros kmer. destruct (insert_total kmer h Hwf) as (b & h' & tr & Hins).
    exists b, h', tr. split; [done|].
    eapply replays_in_segment; [done|]. by eapply traced_insert.
  - intros key Hpos.
    destruct (find_total key h Hwf) as (r & v & tr & Hf); [unfold size; lia|].
    exists (r, v), h, tr. split; [done|].
    eapply replays_in_segment; [done|]. by eapply traced_find.
Qed.

(** ** Waiting on futures *)

(** C4, amended: [find] waits on the future of every read before the next
    probe, and [insert] on the future of every fetch-add.  The remote write
    of [insert] is the exception: its future is dropped, and [insert]
    returns success right after issuing it, without waiting. *)
Theorem waits_except_for_rput (h : HashMap) :
  (∀ key_kmer r h' tr, find key_kmer h = Done r h' tr → blocking tr) ∧
  (∀ kmer h' tr, insert kmer h = Done false h' tr → blocking tr) ∧
  (∀ kmer h' tr, insert kmer h = Done true h' tr →
     ∃ tr0 loc, tr = tr0 ++ [Issue (Rput loc kmer)] ∧ blocking tr0).
Proof.
  split; [|split].
  - intros key [r v] h' tr Hf. unfold find in Hf.
    apply find_loop_shape in Hf as (_ & vs0 & loc & -> & _). apply blocking_reads.
  - intros kmer h' tr Hi. unfold insert in Hi.
    apply insert_loop_shape in Hi as (ps & _ & _ & _ & ->). apply blocking_probes.
  - intros kmer h' tr Hi. unfold insert in Hi.
    apply insert_loop_shape in Hi as (ps & _ & ps0 & loc & _ & _ & _ & ->).
    exists (ps ≫= probe_events), loc. split; [done|]. apply blocking_probes.
Qed.

(** ** A full table *)


(** ** The probe sequence of insert *)

(** C2, amended: [insert] takes [hash = H(record.key)] and requests, for
    [probe = 0, 1, ...] in order, the slot [((hash + probe) mod 2^64) mod
    capacity]: the sum is a 64-bit one and wraps around.  It returns
    success exactly when a fetch-add returns 0, which is then its last one,
    and the record is written to that slot; it returns failure after
    exactly [capacity] fetch-adds that all returned a non-zero value. *)
Theorem insert_probes_in_order (ranks capacity : Z) (h0 h : HashMap) (kmer : kmer_pair) :
  1 ≤ ranks ≤ INT_MAX → 0 ≤ capacity → capacity / ranks + 1 ≤ INT_MAX →
  HashMap_new ranks capacity = Some h0 → reachable h0 h →
  ∃ b h' tr,
    insert kmer h = Done b h' tr ∧
    (∀ i lp, fetch_adds tr !! i = Some lp →
       locate_slot h (to_u64 (to_u64 (kmer_pair_hash kmer) + Z.of_nat i) mod capacity)
         = Some lp.1) ∧
    (b = true ↔ ∃ lp, lp ∈ fetch_adds tr ∧ lp.2 = 0) ∧
    if b then
      ∃ ps0 loc, fetch_adds tr = ps0 ++ [(loc, 0)] ∧ Forall (λ lp, lp.2 ≠ 0) ps0 ∧
                 Z.of_nat (length (fetch_adds tr)) ≤ capacity ∧
                 rputs tr = [(loc, kmer)]
    else
      Z.of_nat (length (fetch_adds tr)) = capacity ∧
      Forall (λ lp, lp.2 ≠ 0) (fetch_adds tr) ∧ rputs tr = [].
Proof.
  intros Hr Hs Hl Hnew Hreach.
  destruct (reachable_new _ _ _ _ Hr Hs Hl Hnew Hreach) as (_ & Hwf & Hsz & _).
  destruct (insert_total kmer h Hwf) as (b & h' & tr & Hi).
  exists b, h', tr. split; [done|]. unfold insert in Hi.
  apply insert_loop_shape in Hi as (ps & Hlocs & Hshape).
  unfold size in *. rewrite Hsz in *.
  assert (Hfa : fetch_adds tr = ps).
  { destruct b.
    - destruct Hshape as (? & ? & _ & _ & _ & ->).
      by rewrite fetch_adds_app, fetch_adds_probes, app_nil_r.
    - destruct Hshape as (_ & _ & ->). apply fetch_adds_probes. }
  rewrite Hfa. split; [|split].
  - intros i lp Hi. apply Hlocs in Hi. unfold probe_slot, size in Hi.
    by rewrite Hsz, Z.add_0_l in Hi.
  - destruct b.
    + destruct Hshape as (ps0 & loc & -> & _). split; [intros _|done].
      exists (loc, 0). split; [|done]. apply elem_of_app. right. by apply list_elem_of_singleton.
    + destruct Hshape as (_ & Hnz & _). split; [done|].
      intros (lp & Hin & Hz). rewrite Forall_forall in Hnz. by apply Hnz in Hin.
  - destruct b.
    + destruct Hshape as (ps0 & loc & -> & Hnz & Hlen & ->).
      exists ps0, loc. split; [done|]. split; [done|]. split; [lia|].
      by rewrite rputs_app, rputs_probes.
    + destruct Hshape as (Hlen & Hnz & ->). split; [lia|]. split; [done|].
      apply rputs_probes.
Qed.

(** ** Keys that are not found *)

(** C8, amended: on a table of capacity at least 1, [find] returns "not
    found" exactly when none of the [capacity] slots of its probe sequence
    holds a record with the key, and it has then read all of them.  On the
    empty table every slot holds the blank record, so [find] returns "not
    found" for every key except the blank record's, for which it returns
    the blank record. *)
Theorem find_not_found (ranks capacity : Z) (h0 h : HashMap) (key_kmer : pkmer_t) :
  1 ≤ ranks ≤ INT_MAX → 0 < capacity → capacity / ranks + 1 ≤ INT_MAX →
  HashMap_new ranks capacity = Some h0 → reachable h0 h →
  (∃ r v tr, find key_kmer h = Done (r, v) h tr ∧
     (r = false ↔
      ∀ probe val, 0 ≤ probe < capacity →
        data_at h (to_u64 (to_u64 (pkmer_hash key_kmer) + probe) mod capacity) = Some val →
        kmer val ≠ key_kmer) ∧
     (r = false → Z.of_nat (length (rgets tr)) = capacity)) ∧
  (∃ tr0, find key_kmer h0 =
          Done (bool_decide (blank_kmer = key_kmer), blank_pair) h0 tr0).
Proof.
  intros Hr Hs Hl Hnew Hreach.
  assert (Hgen : ∀ h1, reachable h0 h1 →
    ∃ r v tr vs0 loc, find key_kmer h1 = Done (r, v) h1 tr ∧
      tr = (vs0 ++ [(loc, v)]) ≫= read_events ∧
      (∀ i lv, (vs0 ++ [(loc, v)]) !! i = Some lv →
         data_at h1 (to_u64 (to_u64 (pkmer_hash key_kmer) + Z.of_nat i) mod capacity)
           = Some lv.2) ∧
      Forall (λ lv, kmer lv.2 ≠ key_kmer) vs0 ∧
      Z.of_nat (length vs0) < capacity ∧
      if r then kmer v = key_kmer
      else kmer v ≠ key_kmer ∧ Z.of_nat (length vs0) = capacity - 1).
  { intros h1 Hreach1.
    destruct (reachable_new _ _ _ _ Hr (Z.lt_le_incl _ _ Hs) Hl Hnew Hreach1) as (_ & Hwf & Hsz & _).
    destruct (find_total key_kmer h1 Hwf) as (r & v & tr & Hf); [unfold size; lia|].
    exists r, v, tr. pose proof Hf as Hf'. unfold find in Hf'.
    apply find_loop_shape in Hf' as (_ & vs0 & loc & -> & Hlocs & Hne & Hlen & Hlast).
    unfold size in *. rewrite Hsz in *.
    exists vs0, loc. split; [done|]. split; [done|]. split; [|split; [done|split; [lia|]]].
    - intros i lv Hi. apply Hlocs in Hi as [Hloc Hcell].
      unfold probe_slot, size in Hloc. rewrite Hsz, Z.add_0_l in Hloc.
      unfold data_at. by rewrite Hloc.
    - destruct r; [done|]. split; [apply Hlast|]. lia. }
  split.
  - destruct (Hgen h Hreach) as (r & v & tr & vs0 & loc & Hf & -> & Hdata & Hne & Hlen & Hlast).
    eexists r, v, _. split; [exact Hf|]. split; [split|].
    + intros -> probe val Hp Hval. destruct Hlast as [Hv Hlen'].
      assert (Hall : Forall (λ lv : SlotLoc * kmer_pair, kmer lv.2 ≠ key_kmer) (vs0 ++ [(loc, v)])).
      { apply Forall_app. split; [done|]. by constructor. }
      destruct (lookup_lt_is_Some_2 (vs0 ++ [(loc, v)]) (Z.to_nat probe)) as [lv Hlv].
      { rewrite length_app. simpl. lia. }
      pose proof (Hdata _ _ Hlv) as Hd. rewrite Z2Nat.id in Hd by lia.
      rewrite Hval in Hd. injection Hd as ->.
      by eapply (Forall_lookup_1 _ _ _ _ Hall Hlv).
    + intros Hall. destruct r; [|done]. exfalso.
      assert (Hlv : (vs0 ++ [(loc, v)]) !! length vs0 = Some (loc, v)).
      { by rewrite lookup_app_r, Nat.sub_diag by lia. }
      apply Hdata in Hlv. by eapply (Hall (Z.of_nat (length vs0))); [lia|exact Hlv|].
    + intros ->. destruct Hlast as [_ Hlen'].
      rewrite rgets_reads, length_app. simpl. lia.
  - destruct (Hgen h0) as (r & v & tr & vs0 & loc & Hf & -> & Hdata & Hne & Hlen & Hlast).
    { exists []. constructor. }
    assert (v = blank_pair) as ->.
    { assert (Hlv : (vs0 ++ [(loc, v)]) !! length vs0 = Some (loc, v)).
      { by rewrite lookup_app_r, Nat.sub_diag by lia. }
      apply Hdata in Hlv. unfold data_at in Hlv.
      destruct (locate_slot h0 _) as [l|]; [|done]. simpl in Hlv.
      by apply (new_cells _ _ _ l Hnew). }
    eexists. rewrite Hf. destruct r.
    + by rewrite bool_decide_true.
    + by rewrite bool_decide_false by apply Hlast.
Qed.

(** ** Counters *)

Lemma exec_request_slot slot h loc c :
  locate_slot h slot = Some loc → cell (used_ptrs h) loc = Some c →
  exec (RequestSlot slot) h =
    Done tt (set_used h (store (used_ptrs h) loc (to_int (c + 1))))
         [Issue (FetchAdd loc c); Await (FetchAdd loc c)].
Proof.
  intros Hloc Hc. simpl. apply bind_Done. eexists _, _, _, _. split.
  { apply request_slot_Done. by exists loc, c. }
  done.
Qed.

Lemma request_wait slot h loc c :
  locate_slot h slot = Some loc → cell (used_ptrs h) loc = Some c →
  (f <- request_slot slot ;; wait f) h =
    Done c (set_used h (store (used_ptrs h) loc (to_int (c + 1))))
         [Issue (FetchAdd loc c); Await (FetchAdd loc c)].
Proof.
  intros Hloc Hc. apply bind_Done. eexists _, _, _, _. split.
  { apply request_slot_Done. by exists loc, c. }
  done.
Qed.

(** After [k] requests a counter that started at 0 holds [k], as an [int]. *)
Lemma request_times_counter h slot loc (k : N) :
  locate_slot h slot = Some loc → cell (used_ptrs h) loc = Some 0 →
  ∃ h' tr, request_times slot k h = Done tt h' tr ∧
           cell (used_ptrs h') loc = Some (to_int (Z.of_N k)) ∧
           slots_per_rank h' = slots_per_rank h ∧ history h tr h'.
Proof.
  intros Hloc Hc. induction k as [|k IH] using N.peano_ind.
  { exists h, []. split; [done|]. split; [done|]. split; [done|constructor]. }
  destruct IH as (h1 & tr1 & Hrun & Hc1 & Hspr & Hhist).
  assert (Hloc1 : locate_slot h1 slot = Some loc) by by rewrite (locate_slot_frame h).
  pose proof (exec_request_slot slot h1 loc _ Hloc1 Hc1) as Hex.
  eexists _, _. split; [|split; [|split]].
  - unfold request_times. rewrite N.iter_succ.
    apply bind_Done. eexists tt, h1, tr1, _. split; [exact Hrun|]. split; [exact Hex|done].
  - simpl. rewrite cell_store_eq by eauto. f_equal.
    rewrite to_int_add_l. f_equal. lia.
  - done.
  - by eapply history_step.
Qed.

Lemma kth_request_value h slot loc (k : N) :
  locate_slot h slot = Some loc → cell (used_ptrs h) loc = Some 0 →
  ∃ h' tr, kth_request slot k h = Done (to_int (Z.of_N k)) h' tr.
Proof.
  intros Hloc Hc.
  destruct (request_times_counter h slot loc k Hloc Hc) as (h1 & tr1 & Hrun & Hc1 & Hspr & _).
  assert (Hloc1 : locate_slot h1 slot = Some loc) by by rewrite (locate_slot_frame h).
  eexists _, _. unfold kth_request. apply bind_Done.
  eexists tt, h1, tr1, _. split; [exact Hrun|].
  split; [by apply (request_wait slot h1 loc)|done].
Qed.

(** C5, amended: on a slot whose counter is 0, the call of [request_slot]
    that comes after [k] earlier ones receives [k], wrapped to an [int].
    So among the first 2^32 calls exactly one, the first, receives 0 and
    every other one a non-zero value; the counter is back at 0 for the
    call after those. *)
Theorem one_winner_per_slot (h : HashMap) (slot : Z) (loc : SlotLoc) (k : N) :
  locate_slot h slot = Some loc → cell (used_ptrs h) loc = Some 0 →
  ∃ h' tr, kth_request slot k h = Done (to_int (Z.of_N k)) h' tr ∧
           ((k < 2 ^ 32)%N → (to_int (Z.of_N k) = 0 ↔ k = 0%N)).
Proof.
  intros Hloc Hc.
  destruct (kth_request_value h slot loc k Hloc Hc) as (h' & tr & Hk).
  exists h', tr. split; [done|]. intros Hlt. rewrite to_int_zero.
  rewrite Z.mod_small by lia. lia.
Qed.

Lemma effect_cell_back e h h' loc :
  effect e h h' → is_Some (cell (used_ptrs h') loc) → is_Some (cell (used_ptrs h) loc).
Proof.
  destruct 1 as [l prev h Hl|l v h Hl|l v h Hl|l v h Hl|o h]; simpl; try done.
  destruct (decide (loc = l)) as [->|Hne]; [eauto|].
  by rewrite cell_store_ne by eauto.
Qed.

Lemma replays_cell_back h tr h' loc :
  replays h tr h' → is_Some (cell (used_ptrs h') loc) → is_Some (cell (used_ptrs h) loc).
Proof. induction 1; eauto using effect_cell_back. Qed.

Lemma claimed_writes_app tr1 tr2 :
  claimed_writes tr1 → claimed_writes tr2 → claimed_writes (tr1 ++ tr2).
Proof. induction 1; simpl; intros; [done|constructor; auto..]. Qed.

Lemma claimed_writes_probes (ps : list (SlotLoc * Z)) : claimed_writes (ps ≫= probe_events).
Proof.
  induction ps as [|[l p] ps IH]; [constructor|].
  rewrite bind_cons. simpl. by repeat (apply claimed_other; [done|]).
Qed.

Lemma claimed_writes_reads (vs : list (SlotLoc * kmer_pair)) :
  claimed_writes (vs ≫= read_events).
Proof.
  induction vs as [|[l p] vs IH]; [constructor|].
  rewrite bind_cons. simpl. by repeat (apply claimed_other; [done|]).
Qed.

Lemma exec_claimed_writes o h u h' tr :
  exec o h = Done u h' tr → claimed_writes tr.
Proof.
  destruct o as [kmer|key|slot]; simpl; intros Hex; bind_inv Hex.
  - injection Hex as <- <- <-. rewrite app_nil_r. unfold insert in Hstep.
    apply insert_loop_shape in Hstep as (ps & _ & Hshape). destruct a.
    + destruct Hshape as (ps0 & loc & -> & _ & _ & ->).
      rewrite bind_app, bind_singleton, <- app_assoc.
      apply claimed_writes_app; [apply claimed_writes_probes|].
      apply claimed_put. constructor.
    + destruct Hshape as (_ & _ & ->). apply claimed_writes_probes.
  - injection Hex as <- <- <-. rewrite app_nil_r. destruct a as [r v].
    unfold find in Hstep.
    apply find_loop_shape in Hstep as (_ & vs0 & loc & -> & _).
    apply claimed_writes_reads.
  - apply request_slot_Done in Hstep as (loc & prev & _ & _ & -> & -> & ->).
    bind_inv Hex. injection Hstep as <- <- <-. injection Hex as <- <- <-.
    simpl. by repeat (apply claimed_other; [done|]); constructor.
Qed.

Lemma history_claimed_writes h0 tr h : history h0 tr h → claimed_writes tr.
Proof.
  induction 1; [constructor|].
  apply claimed_writes_app; [done|]. by eapply exec_claimed_writes.
Qed.

(** From the table the constructor builds, a counter holds the number of
    fetch-adds made on it, as an [int]. *)
Lemma history_counter ranks capacity h0 h tr loc c :
  HashMap_new ranks capacity = Some h0 → history h0 tr h →
  cell (used_ptrs h) loc = Some c → c = to_int (fetch_adds_on loc tr).
Proof.
  intros Hnew Hhist%history_replays Hc.
  destruct (replays_cell_back _ _ _ loc Hhist) as [c0 Hc0]; [eauto|].
  pose proof (proj1 (new_cells _ _ _ loc Hnew) _ Hc0) as ->.
  rewrite (replays_counter _ _ _ _ _ Hhist Hc0) in Hc. injection Hc as <-.
  case_decide as Hz; [by rewrite Hz|done].
Qed.

(** C6, amended: in every state reached from the table the constructor
    builds, by any calls of [insert], [find] and [request_slot], each
    counter holds the number of fetch-adds made on it so far, wrapped to an
    [int]: it leaves 0 with the first fetch-add and no call takes it back
    to 0 before the 2^32-th fetch-add on it, which does.  Every record is
    written right after a fetch-add of the writer on that slot has
    returned 0. *)
Theorem counters_count_fetch_adds (ranks capacity : Z) (h0 h : HashMap) (tr : trace) :
  HashMap_new ranks capacity = Some h0 → history h0 tr h →
  claimed_writes tr ∧
  (∀ loc c, cell (used_ptrs h) loc = Some c →
     c = to_int (fetch_adds_on loc tr) ∧
     (0 < fetch_adds_on loc tr < 2 ^ 32 → c ≠ 0)) ∧
  (∀ o h' tr' loc c c',
     exec o h = Done tt h' tr' →
     cell (used_ptrs h) loc = Some c → cell (used_ptrs h') loc = Some c' →
     c ≠ 0 → fetch_adds_on loc (tr ++ tr') < 2 ^ 32 → c' ≠ 0).
Proof.
  intros Hnew Hhist. split; [by eapply history_claimed_writes|]. split.
  - intros loc c Hc. rewrite (history_counter _ _ _ _ _ _ _ Hnew Hhist Hc).
    split; [done|]. intros Hn. rewrite to_int_zero, Z.mod_small by lia. lia.
  - intros o h' tr' loc c c' Hex Hc Hc' Hnz Hlt.
    pose proof (history_step _ _ _ _ _ _ Hhist Hex) as Hhist'.
    rewrite (history_counter _ _ _ _ _ _ _ Hnew Hhist Hc) in Hnz.
    rewrite (history_counter _ _ _ _ _ _ _ Hnew Hhist' Hc').
    pose proof (fetch_adds_on_nonneg loc tr). pose proof (fetch_adds_on_nonneg loc tr').
    rewrite fetch_adds_on_app in *.
    assert (fetch_adds_on loc tr ≠ 0) by (by intros Hz; rewrite Hz in Hnz).
    rewrite to_int_zero, Z.mod_small by lia. lia.
Qed.

(** ** The probe sequence *)

(** Before the 64-bit sum wraps around, two probes closer than the
    capacity request different slots. *)
Lemma probe_slot_eq_low C hash i j :
  0 < C → 0 ≤ hash → 0 ≤ i < C → 0 ≤ j < C →
  hash + i < 2 ^ 64 → hash + j < 2 ^ 64 →
  to_u64 (hash + i) mod C = to_u64 (hash + j) mod C → i = j.
Proof.
  intros HC Hh Hi Hj Hli Hlj. rewrite !to_u64_small by lia. intros Heq.
  assert (Hd : (hash + i - (hash + j)) mod C = 0).
  { rewrite Zminus_mod, Heq, Z.sub_diag. by apply Z.mod_0_l; lia. }
  apply Z.mod_divide in Hd; [|lia]. destruct Hd as [q Hq].
  assert (q = 0) by nia. lia.
Qed.

(** So do two probes after the wrap. *)
Lemma probe_slot_eq_high C hash i j :
  0 < C → 0 ≤ hash < 2 ^ 64 → 0 ≤ i < C → 0 ≤ j < C → C < 2 ^ 64 →
  2 ^ 64 ≤ hash + i → 2 ^ 64 ≤ hash + j →
  to_u64 (hash + i) mod C = to_u64 (hash + j) mod C → i = j.
Proof.
  intros HC Hh Hi Hj HC' Hli Hlj. unfold to_u64.
  replace (hash + i) with (hash + i - 2 ^ 64 + 1 * 2 ^ 64) by lia.
  replace (hash + j) with (hash + j - 2 ^ 64 + 1 * 2 ^ 64) by lia.
  rewrite !Z.mod_add by lia.
  rewrite (Z.mod_small (hash + i - 2 ^ 64) (2 ^ 64)) by lia.
  rewrite (Z.mod_small (hash + j - 2 ^ 64) (2 ^ 64)) by lia.
  rewrite !Z.mod_small by lia. lia.
Qed.

Lemma NoDup_filter_le {A} `{EqDecision A} (x : A) (l : list A) :
  NoDup l → (length (filter (λ y, y = x) l) ≤ 1)%nat.
Proof.
  induction 1 as [|y l Hy _ IH]; [simpl; lia|].
  rewrite filter_cons. case_decide as Hyx; [|done]. subst y.
  assert (Hnil : filter (λ y, y = x) l = []).
  { apply elem_of_nil_inv. intros z [-> Hz]%list_elem_of_filter. done. }
  rewrite Hnil. done.
Qed.

(** A list made of two runs without repetition holds no element thrice. *)
Lemma two_runs_filter_le {A} `{EqDecision A} (x : A) (l : list A) n :
  NoDup (take n l) → NoDup (drop n l) → (length (filter (λ y, y = x) l) ≤ 2)%nat.
Proof.
  intros H1 H2. rewrite <- (take_drop n l), filter_app, length_app.
  pose proof (NoDup_filter_le x _ H1). pose proof (NoDup_filter_le x _ H2). lia.
Qed.

Lemma fetch_adds_on_count loc tr :
  fetch_adds_on loc tr =
  Z.of_nat (length (filter (λ l, l = loc) (fetch_adds tr).*1)).
Proof.
  induction tr as [|[[l p|l v|l v|l v]|o] tr IH];
    cbn [fetch_adds_on fetch_adds is_fetch_add_on]; rewrite ?IH; try done.
  rewrite fmap_cons, filter_cons. cbn [fst].
  case_bool_decide; case_decide; try done; cbn [length]; lia.
Qed.

(** The locations [insert] and [find] probe come in two runs without
    repetition: the probes before the 64-bit sum wraps, and those after. *)
Lemma probe_runs h hash (locs : list SlotLoc) :
  wf_table h → 0 ≤ hash < 2 ^ 64 → Z.of_nat (length locs) ≤ size h →
  (∀ i loc, locs !! i = Some loc →
     locate_slot h (probe_slot h hash (Z.of_nat i)) = Some loc) →
  NoDup (take (Z.to_nat (2 ^ 64 - hash)) locs) ∧
  NoDup (drop (Z.to_nat (2 ^ 64 - hash)) locs).
Proof.
  intros Hwf Hh Hlen Hlocs. pose proof (wf_size h Hwf) as Hsz. unfold size in *.
  assert (Hinj : ∀ i j loc, locs !! i = Some loc → locs !! j = Some loc →
    probe_slot h hash (Z.of_nat i) = probe_slot h hash (Z.of_nat j)).
  { intros i j loc Hi Hj.
    pose proof (lookup_lt_Some _ _ _ Hi). pose proof (lookup_lt_Some _ _ _ Hj).
    eapply (locate_slot_inj h _ _ loc); eauto.
    all: apply probe_slot_range; unfold size; lia. }
  split; apply NoDup_alt; intros i j loc Hi Hj.
  - apply lookup_take_Some in Hi as [Hi Hia]. apply lookup_take_Some in Hj as [Hj Hja].
    pose proof (lookup_lt_Some _ _ _ Hi). pose proof (lookup_lt_Some _ _ _ Hj).
    pose proof (Hinj i j loc Hi Hj) as Heq. unfold probe_slot, size in Heq.
    apply probe_slot_eq_low in Heq; lia.
  - rewrite lookup_drop in Hi, Hj.
    pose proof (lookup_lt_Some _ _ _ Hi). pose proof (lookup_lt_Some _ _ _ Hj).
    pose proof (Hinj _ _ loc Hi Hj) as Heq. unfold probe_slot, size in Heq.
    apply probe_slot_eq_high in Heq; lia.
Qed.

(** ** One insert of the insert phase *)

Lemma fetch_adds_on_pos loc tr :
  loc ∈ (fetch_adds tr).*1 → 0 < fetch_adds_on loc tr.
Proof.
  intros Hin. rewrite fetch_adds_on_count.
  assert (Hf : loc ∈ filter (λ l, l = loc) (fetch_adds tr).*1) by by apply list_elem_of_filter.
  destruct (filter _ _); [by apply elem_of_nil in Hf|simpl; lia].
Qed.

(** What a successful [insert] leaves behind. *)
Lemma insert_success_state kmer h h' (ps0 : list (SlotLoc * Z)) loc :
  replays h (((ps0 ++ [(loc, 0)]) ≫= probe_events) ++ [Issue (Rput loc kmer)]) h' →
  ∃ h1, replays h (ps0 ≫= probe_events) h1 ∧
        cell (used_ptrs h1) loc = Some 0 ∧
        is_Some (cell (data_ptrs h) loc) ∧
        data_ptrs h' = store (data_ptrs h) loc kmer.
Proof.
  rewrite bind_app, bind_singleton, <- app_assoc. simpl.
  intros (h1 & Hr0 & Hr)%replays_app_inv.
  exists h1. split; [done|].
  pose proof (replays_data_unchanged _ _ _ Hr0 (rputs_probes ps0)) as Hdata.
  inversion Hr as [|e1 tr1 ha hb hc He1 Hr1]; subst.
  inversion He1 as [l prev hx Hcell| | | |]; subst.
  inversion Hr1 as [|e2 tr2 hd he hf He2 Hr2]; subst.
  inversion He2; subst.
  inversion Hr2 as [|e3 tr3 hg hh hi He3 Hr3]; subst.
  inversion He3 as [| |l v hx Hd| |]; subst.
  inversion Hr3; subst. simpl in *.
  rewrite Hdata in *. done.
Qed.

Lemma insert_phase_step k h kmer :
  insert_phase k h → 0 ≤ k → 2 * (k + 1) ≤ size h → 2 * (k + 1) ≤ INT_MAX →
  ∃ h' tr, insert kmer h = Done true h' tr ∧ insert_phase (k + 1) h' ∧
           my_size h' = my_size h ∧ stored h' kmer ∧
           ∀ kmer0, stored h kmer0 → stored h' kmer0.
Proof.
  intros [Hwf Hcnt (cl & Hcl & Hclaimed)] Hk Hload Hmax. unfold INT_MAX in Hmax.
  destruct (insert_total kmer h Hwf) as (b & h' & tr & Hi).
  pose proof (traced_insert kmer _ _ _ _ Hi) as Hrep.
  destruct (replays_frame _ _ _ Hrep) as (Hspr & Hsz & Hlen).
  pose proof (replays_wf _ _ _ Hrep Hwf) as Hwf'.
  pose proof (to_u64_range (kmer_pair_hash kmer)) as Hhash.
  pose proof (wf_size h Hwf) as Hsize.
  pose proof Hi as Hshape. unfold insert in Hshape.
  apply insert_loop_shape in Hshape as (ps & Hlocs & Hshape).
  set (hash := to_u64 (kmer_pair_hash kmer)) in *.
  assert (Hfa : fetch_adds tr = ps).
  { destruct b.
    - destruct Hshape as (? & ? & _ & _ & _ & ->).
      by rewrite fetch_adds_app, fetch_adds_probes, app_nil_r.
    - destruct Hshape as (_ & _ & ->). apply fetch_adds_probes. }
  assert (Hpslen : Z.of_nat (length ps) ≤ size h).
  { destruct b; [destruct Hshape as (_ & _ & _ & _ & Hl & _)|destruct Hshape as (Hl & _)];
      unfold size in *; lia. }
  assert (Hlocs' : ∀ i loc, ps.*1 !! i = Some loc →
    locate_slot h (probe_slot h hash (Z.of_nat i)) = Some loc).
  { intros i loc (lp & -> & Hlp)%list_lookup_fmap_Some_1. by apply Hlocs in Hlp. }
  destruct (probe_runs h hash (ps.*1) Hwf Hhash) as [Hrun1 Hrun2];
    [by rewrite length_fmap|done|].
  assert (Hhits : ∀ loc, 0 ≤ fetch_adds_on loc tr ≤ 2).
  { intros loc. split; [apply fetch_adds_on_nonneg|].
    rewrite fetch_adds_on_count, Hfa.
    pose proof (two_runs_filter_le loc _ _ Hrun1 Hrun2). lia. }
  assert (Hused : ∀ loc, loc ∈ ps.*1 → is_Some (cell (used_ptrs h) loc)).
  { intros loc (i & Hi')%list_elem_of_lookup_1.
    pose proof (lookup_lt_Some _ _ _ Hi') as Hlt. rewrite length_fmap in Hlt.
    apply Hlocs' in Hi'.
    destruct (locate_slot_cells h (probe_slot h hash (Z.of_nat i)) Hwf)
      as (loc' & Hloc' & _ & Hu & _).
    { apply probe_slot_range. lia. }
    congruence. }
  destruct b.
  - (* success *)
    destruct Hshape as (ps0 & loc & -> & Hnz & Hn & ->).
    eexists h', _. split; [exact Hi|].
    destruct (insert_success_state _ _ _ _ _ Hrep) as (h1 & Hr0 & Hc1 & Hd & Hdata).
    destruct (Hused loc) as [c0 Hc0].
    { rewrite fmap_app. apply elem_of_app. right. by apply list_elem_of_singleton. }
    assert (Hhits0 : fetch_adds_on loc (ps0 ≫= probe_events) ≤ fetch_adds_on loc
      (((ps0 ++ [(loc, 0)]) ≫= probe_events) ++ [Issue (Rput loc kmer)])).
    { rewrite bind_app, !fetch_adds_on_app.
      pose proof (fetch_adds_on_nonneg loc ([(loc, 0)] ≫= probe_events)).
      pose proof (fetch_adds_on_nonneg loc [Issue (Rput loc kmer)]). lia. }
    assert (Hfree : c0 = 0 ∧ fetch_adds_on loc (ps0 ≫= probe_events) = 0).
    { pose proof (replays_counter _ _ _ loc c0 Hr0 Hc0) as Hc1'.
      rewrite Hc1 in Hc1'. injection Hc1' as Hc1'.
      pose proof (fetch_adds_on_nonneg loc (ps0 ≫= probe_events)).
      case_decide as Hz; [done|]. exfalso.
      assert (c0 ≠ 0).
      { intros ->. apply Hz. eapply replays_free_untouched; [exact Hr0| |done].
        by rewrite fetch_adds_probes. }
      pose proof (Hcnt _ _ Hc0). pose proof (Hhits loc).
      rewrite to_int_small in Hc1' by lia. lia. }
    destruct Hfree as [-> Hfree].
    assert (Hcount : ∀ l, fetch_adds_on l
        (((ps0 ++ [(loc, 0)]) ≫= probe_events) ++ [Issue (Rput loc kmer)]) =
        fetch_adds_on l (ps0 ≫= probe_events) + (if bool_decide (loc = l) then 1 else 0)).
    { intros l. rewrite bind_app, !fetch_adds_on_app, bind_singleton. simpl. lia. }
    assert (Hcounter : ∀ l c, cell (used_ptrs h) l = Some c →
      ∃ c', cell (used_ptrs h') l = Some c' ∧ 0 ≤ c' ≤ 2 * (k + 1) ∧
            (c ≠ 0 → c' ≠ 0) ∧ (c' ≠ 0 → c ≠ 0 ∨ l = loc)).
    { intros l c Hc. pose proof (replays_counter _ _ _ l c Hrep Hc) as Hc'.
      eexists. split; [exact Hc'|].
      pose proof (Hcnt _ _ Hc). pose proof (Hhits l) as Hhl.
      case_decide as Hz; [repeat split; try lia; auto|].
      rewrite to_int_small by lia. repeat split; try lia.
      intros _. destruct (decide (c = 0)) as [->|]; [|by left]. right.
      rewrite Hcount in Hz.
      rewrite (replays_free_untouched _ _ _ l Hr0) in Hz; [| |done].
      - by case_bool_decide.
      - by rewrite fetch_adds_probes. }
    split; [|split; [done|split]].
    + split; [done| |].
      * intros l c' Hc'.
        destruct (replays_cell_back _ _ _ l Hrep) as [c Hc]; [eauto|].
        destruct (Hcounter l c Hc) as (c'' & Hc'' & ? & _). congruence.
      * exists (loc :: cl). split; [simpl; lia|].
        intros l c' Hc' Hnz'.
        destruct (replays_cell_back _ _ _ l Hrep) as [c Hc]; [eauto|].
        destruct (Hcounter l c Hc) as (c'' & Hc'' & _ & _ & Hor).
        rewrite Hc' in Hc''. injection Hc'' as <-.
        destruct (Hor Hnz') as [Hc0'| ->]; [|by left].
        right. by eapply Hclaimed.
    + exists (Z.of_nat (length ps0)), loc.
      destruct (Hcounter loc 0 Hc0) as (c' & Hc' & _ & _ & _).
      pose proof (replays_counter _ _ _ loc 0 Hrep Hc0) as Hc''.
      rewrite Hcount, Hfree, bool_decide_true in Hc'' by done. simpl in Hc''.
      exists (to_int (0 + 1)). rewrite length_app in *. simpl in *.
      split; [unfold size in *; lia|]. split; [|split; [|split]].
      * rewrite (locate_slot_frame h), (probe_slot_frame h) by done.
        specialize (Hlocs (length ps0) (loc, 0)). simpl in Hlocs. apply Hlocs.
        by rewrite lookup_app_r, Nat.sub_diag by lia.
      * rewrite Hdata. by apply cell_store_eq.
      * done.
      * done.
    + intros kmer0 (probe & l & c & Hp & Hl & Hdl & Hcl' & Hcnz).
      destruct (Hcounter l c Hcl') as (c' & Hc' & _ & Hnz' & _).
      exists probe, l, c'. unfold size in *. rewrite Hsz.
      split; [done|]. split; [|split; [|split]].
      * by rewrite (locate_slot_frame h), (probe_slot_frame h).
      * rewrite Hdata, cell_store_ne; [done|done|]. intros ->. congruence.
      * done.
      * auto.
  - (* failure: more claimed slots than inserts so far *)
    exfalso. destruct Hshape as (Hn & Hnz & ->).
    assert (Hall : ∀ loc, loc ∈ ps.*1 → loc ∈ cl).
    { intros loc Hin. destruct (Hused loc Hin) as [c Hc].
      apply (Hclaimed loc c Hc). intros ->.
      pose proof (fetch_adds_on_pos loc (ps ≫= probe_events)) as Hpos.
      rewrite fetch_adds_probes in Hpos. specialize (Hpos Hin).
      rewrite (replays_free_untouched _ _ _ loc Hrep) in Hpos; [lia| |done].
      by rewrite fetch_adds_probes. }
    set (na := Z.to_nat (2 ^ 64 - hash)) in *.
    assert (H1 : (length (take na ps.*1) ≤ length cl)%nat).
    { apply submseteq_length, NoDup_submseteq; [done|].
      intros x Hx. apply Hall. by eapply subseteq_take. }
    assert (H2 : (length (drop na ps.*1) ≤ length cl)%nat).
    { apply submseteq_length, NoDup_submseteq; [done|].
      intros x Hx. apply Hall. by eapply subseteq_drop. }
    pose proof (f_equal length (take_drop na ps.*1)) as Htd.
    rewrite length_app, length_fmap in Htd. unfold size in *. lia.
Qed.

(** A first probe outside the segments ends [insert]. *)
Lemma insert_out_of_segment kmer hash n h loc :
  size h ≠ 0 → locate_slot h (probe_slot h hash 0) = Some loc →
  cell (used_ptrs h) loc = None →
  insert_loop kmer hash (S n) 0 h = Undefined OutOfSegment [].
Proof.
  intros Hsz Hloc Hc. unfold probe_slot in Hloc. simpl.
  unfold bind, umod, request_slot, bind, locate, fetch_add.
  rewrite bool_decide_false by done. by rewrite Hloc, Hc.
Qed.

(** ** The insert phase and the finds after it *)

Lemma insert_phase_new ranks capacity h0 :
  HashMap_new ranks capacity = Some h0 → wf_table h0 → insert_phase 0 h0.
Proof.
  intros Hnew Hwf. split; [done| |].
  - intros loc c Hc. by rewrite (proj1 (new_cells _ _ _ loc Hnew) c Hc).
  - exists []. split; [done|]. intros loc c Hc Hnz.
    by rewrite (proj1 (new_cells _ _ _ loc Hnew) c Hc) in Hnz.
Qed.

Lemma insert_all_phase kmers k h :
  insert_phase k h → 0 ≤ k →
  2 * (k + Z.of_nat (length kmers)) ≤ size h →
  2 * (k + Z.of_nat (length kmers)) ≤ INT_MAX →
  ∃ h' tr, insert_all kmers h = Done (replicate (length kmers) true) h' tr ∧
           insert_phase (k + Z.of_nat (length kmers)) h' ∧
           my_size h' = my_size h ∧ Forall (stored h') kmers ∧
           ∀ kmer0, stored h kmer0 → stored h' kmer0.
Proof.
  revert k h. induction kmers as [|kmer rest IH]; intros k h Hph Hk Hload Hmax.
  { exists h, []. simpl. rewrite Z.add_0_r.
    split; [done|]. split; [done|]. split; [done|]. split; [constructor|done]. }
  simpl length in *.
  destruct (insert_phase_step k h kmer Hph Hk) as (h1 & tr1 & Hins & Hph1 & Hsz1 & Hst & Hkeep);
    [lia..|].
  destruct (IH (k + 1) h1 Hph1) as (h' & tr' & Hall & Hph' & Hsz' & Hsts & Hkeep');
    [unfold size in *; lia..|].
  exists h', (tr1 ++ tr' ++ []). split; [|split; [|split; [|split]]].
  - simpl. apply bind_Done. eexists true, h1, tr1, _. split; [exact Hins|]. split; [|done].
    apply bind_Done. eexists _, h', tr', _. split; [exact Hall|]. done.
  - by replace (k + Z.of_nat (S (length rest))) with (k + 1 + Z.of_nat (length rest)) by lia.
  - congruence.
  - constructor; auto.
  - auto.
Qed.

(** A stored record is found, or an earlier slot with its key is. *)
Lemma find_stored h kmer0 :
  wf_table h → stored h kmer0 →
  ∃ v tr, find (kmer kmer0) h = Done (true, v) h tr ∧ kmer v = kmer kmer0.
Proof.
  intros Hwf (probe & loc & c & Hp & Hloc & Hdata & _).
  destruct (find_total (kmer kmer0) h Hwf) as (r & v & tr & Hf); [lia|].
  pose proof Hf as Hshape. unfold find in Hshape.
  apply find_loop_shape in Hshape as (_ & vs0 & loc' & -> & Hlocs & Hne & Hlen & Hlast).
  destruct r; [by eauto|]. exfalso. destruct Hlast as [Hv Hn].
  assert (Hall : Forall (λ lv : SlotLoc * kmer_pair, kmer lv.2 ≠ kmer kmer0) (vs0 ++ [(loc', v)])).
  { apply Forall_app. split; [done|]. by constructor. }
  destruct (lookup_lt_is_Some_2 (vs0 ++ [(loc', v)]) (Z.to_nat probe)) as [lv Hlv].
  { rewrite length_app. simpl. lia. }
  pose proof (Forall_lookup_1 _ _ _ _ Hall Hlv) as Hkey. simpl in Hkey.
  apply Hlocs in Hlv as [Hl Hd]. rewrite Z.add_0_l, Z2Nat.id in Hl by lia.
  unfold kmer_pair_hash in Hloc. rewrite Hloc in Hl. injection Hl as Hl.
  rewrite <- Hl, Hdata in Hd. injection Hd as Hd. by rewrite <- Hd in Hkey.
Qed.

(** C1, amended: take a table whose segment size [capacity / ranks + 1]
    fits an [int], and records, of distinct keys or not, that fill at most
    half of it and are few enough for twice their number to fit an [int].
    Then every [insert] returns success, and after the insert phase [find]
    on the key of each record returns success with a record of that key. *)
Theorem inserted_keys_are_found (ranks capacity : Z) (h0 : HashMap) (kmers : list kmer_pair) :
  1 ≤ ranks ≤ INT_MAX → capacity / ranks + 1 ≤ INT_MAX →
  2 * Z.of_nat (length kmers) ≤ capacity →
  2 * Z.of_nat (length kmers) ≤ INT_MAX →
  HashMap_new ranks capacity = Some h0 →
  ∃ h tr,
    insert_all kmers h0 = Done (replicate (length kmers) true) h tr ∧
    ∀ kmer0, kmer0 ∈ kmers →
      ∃ v tr', find (kmer kmer0) h = Done (true, v) h tr' ∧ kmer v = kmer kmer0.
Proof.
  intros Hr Hl Hload Hmax Hnew.
  assert (Hcap : 0 ≤ capacity) by lia.
  destruct (reachable_new _ _ _ h0 Hr Hcap Hl Hnew) as (Hwf & _ & Hsz & _).
  { exists []. constructor. }
  destruct (insert_all_phase kmers 0 h0) as (h & tr & Hall & Hph & _ & Hst & _).
  - by eapply insert_phase_new.
  - done.
  - unfold size. lia.
  - lia.
  - exists h, tr. split; [done|]. intros kmer0 Hin.
    apply find_stored; [apply Hph|]. rewrite Forall_forall in Hst. by apply Hst.
Qed.

(** * Further properties of the operations *)

(** ** The partition of the slots *)

(** X1: on a table built with a segment size that fits an [int],
    [locate_slot] gives two different slots below the capacity two
    different locations, and a slot is recovered from its location as
    [rank * slots_per_rank + offset]. *)
Theorem locate_slot_injective (ranks capacity : Z) (h0 h : HashMap)
    (s1 s2 : Z) (loc : SlotLoc) :
  1 ≤ ranks ≤ INT_MAX → 0 ≤ capacity → capacity / ranks + 1 ≤ INT_MAX →
  HashMap_new ranks capacity = Some h0 → reachable h0 h →
  0 ≤ s1 < capacity → 0 ≤ s2 < capacity →
  locate_slot h s1 = Some loc →
  (locate_slot h s2 = Some loc → s1 = s2) ∧
  s1 = rank loc * slots_per_rank h + offset loc.
Proof.
  intros Hr Hs Hl Hnew Hreach H1 H2 Hloc.
  destruct (reachable_new _ _ _ _ Hr Hs Hl Hnew Hreach) as (_ & Hwf & Hsz & _).
  rewrite <- Hsz in H1, H2. split.
  - intros Hloc2. by eapply locate_slot_inj.
  - destruct (locate_slot_wf h s1 Hwf H1) as [Hloc' _].
    rewrite Hloc in Hloc'. injection Hloc' as ->. simpl.
    pose proof (wf_spr h Hwf).
    rewrite (Z.div_mod s1 (slots_per_rank h)) at 1 by lia. lia.
Qed.

(** ** Reading and writing a slot *)


(** ** slot_used *)

(** X3: [slot_used] changes nothing and waits on its load.  In a state
    reached from the table the constructor builds it answers whether the
    number of fetch-adds made on the slot so far is not a multiple of
    2^32: [false] on the new table, [true] from the first request of the
    slot on, until the counter wraps. *)
Theorem slot_used_counts_requests (ranks capacity : Z) (h0 h : HashMap)
    (tr : trace) (slot : Z) :
  1 ≤ ranks ≤ INT_MAX → 0 ≤ capacity → capacity / ranks + 1 ≤ INT_MAX →
  HashMap_new ranks capacity = Some h0 → history h0 tr h →
  0 ≤ slot < capacity →
  ∃ loc tr',
    locate_slot h slot = Some loc ∧
    slot_used slot h =
      Done (negb (bool_decide (fetch_adds_on loc tr mod 2 ^ 32 = 0))) h tr' ∧
    blocking tr'.
Proof.
  intros Hr Hs Hl Hnew Hhist Hslot.
  destruct (reachable_new _ _ _ _ Hr Hs Hl Hnew (ex_intro _ tr Hhist)) as (_ & Hwf & Hsz & _).
  rewrite <- Hsz in *.
  destruct (locate_slot_cells h slot Hwf Hslot) as (loc & Hloc & _ & [c Hc] & _).
  exists loc, [Issue (Load loc c); Await (Load loc c)]. split; [done|]. split.
  - unfold slot_used, bind, locate, atomic_load, wait, ret. rewrite Hloc, Hc. simpl.
    do 2 f_equal. apply bool_decide_ext.
    rewrite (history_counter _ _ _ _ _ _ _ Hnew Hhist Hc). apply to_int_zero.
  - repeat constructor.
Qed.

(** ** What find reads and returns *)

Lemma fetch_adds_reads (vs : list (SlotLoc * kmer_pair)) :
  fetch_adds (vs ≫= read_events) = [].
Proof.
  induction vs as [|[l p] vs IH]; [done|].
  by rewrite bind_cons, fetch_adds_app, IH.
Qed.

Lemma rputs_reads (vs : list (SlotLoc * kmer_pair)) : rputs (vs ≫= read_events) = [].
Proof.
  induction vs as [|[l p] vs IH]; [done|].
  by rewrite bind_cons, rputs_app, IH.
Qed.

(** X4: [find] only reads.  It leaves the table as it was, issues no
    fetch-add and no write, and makes between one and [size()] reads (one
    when [size()] is 1); so a second [find] of the key returns the same. *)
Theorem find_only_reads (key_kmer : pkmer_t) (h h' : HashMap)
    (r : bool * kmer_pair) (tr : trace) :
  find key_kmer h = Done r h' tr →
  h' = h ∧ fetch_adds tr = [] ∧ rputs tr = [] ∧
  (1 ≤ length (rgets tr) ≤ S (Z.to_nat (size h - 1)))%nat ∧
  find key_kmer h' = Done r h' tr.
Proof.
  intros Hf. destruct r as [r v]. pose proof Hf as Hshape. unfold find in Hshape.
  apply find_loop_shape in Hshape as (-> & vs0 & loc & -> & _ & _ & Hlen & _).
  split; [done|]. rewrite fetch_adds_reads, rputs_reads, rgets_reads, length_app.
  simpl. repeat split; try done; lia.
Qed.

(** X5: when [find] returns success, the record it returns is the one of
    the first slot of the probe sequence that holds the key: the slots
    probed before it hold other keys. *)
Theorem find_returns_first_match (key_kmer : pkmer_t) (h h' : HashMap)
    (v : kmer_pair) (tr : trace) :
  find key_kmer h = Done (true, v) h' tr →
  ∃ p : nat,
    length (rgets tr) = S p ∧
    data_at h (probe_slot h (to_u64 (pkmer_hash key_kmer)) (Z.of_nat p)) = Some v ∧
    kmer v = key_kmer ∧
    ∀ (q : nat) w, (q < p)%nat →
      data_at h (probe_slot h (to_u64 (pkmer_hash key_kmer)) (Z.of_nat q)) = Some w →
      kmer w ≠ key_kmer.
Proof.
  intros Hf. unfold find in Hf.
  apply find_loop_shape in Hf as (_ & vs0 & loc & -> & Hlocs & Hne & Hlen & Hkey).
  assert (Hdata : ∀ i lv, (vs0 ++ [(loc, v)]) !! i = Some lv →
    data_at h (probe_slot h (to_u64 (pkmer_hash key_kmer)) (Z.of_nat i)) = Some lv.2).
  { intros i lv [Hl Hc]%Hlocs. rewrite Z.add_0_l in Hl. unfold data_at. by rewrite Hl. }
  exists (length vs0). split; [|split; [|split; [done|]]].
  - rewrite rgets_reads, length_app. simpl. lia.
  - apply (Hdata _ (loc, v)). by rewrite lookup_app_r, Nat.sub_diag by lia.
  - intros q w Hq Hw.
    destruct (lookup_lt_is_Some_2 vs0 q Hq) as [lv Hlv].
    pose proof (Forall_lookup_1 _ _ _ _ Hne Hlv) as Hk. simpl in Hk.
    rewrite (Hdata q lv) in Hw by (by rewrite lookup_app_l). by injection Hw as <-.
Qed.

(** X6: when [find] returns "not found" it has read all [size()] slots of
    the probe sequence, and [val_kmer] is not left alone: it holds the
    record of the last slot probed, which has another key. *)
Theorem find_failure_returns_last_read (key_kmer : pkmer_t) (h h' : HashMap)
    (v : kmer_pair) (tr : trace) :
  0 ≤ size h → find key_kmer h = Done (false, v) h' tr →
  1 ≤ size h ∧ Z.of_nat (length (rgets tr)) = size h ∧
  data_at h (probe_slot h (to_u64 (pkmer_hash key_kmer)) (size h - 1)) = Some v ∧
  kmer v ≠ key_kmer.
Proof.
  intros Hsz Hf. unfold find in Hf.
  assert (Hnz : size h ≠ 0).
  { by apply find_loop_step in Hf as [? _]. }
  apply find_loop_shape in Hf as (_ & vs0 & loc & -> & Hlocs & _ & _ & Hkey & Hlen).
  split; [lia|]. split; [|split; [|done]].
  - rewrite rgets_reads, length_app. simpl. lia.
  - destruct (Hlocs (length vs0) (loc, v)) as [Hl Hc].
    { by rewrite lookup_app_r, Nat.sub_diag by lia. }
    rewrite Z.add_0_l, Hlen, Z2Nat.id in Hl by lia.
    unfold data_at. by rewrite Hl.
Qed.

(** ** What a successful insert changes *)

Lemma insert_success_effect kmer h h' (ps0 : list (SlotLoc * Z)) loc :
  replays h (((ps0 ++ [(loc, 0)]) ≫= probe_events) ++ [Issue (Rput loc kmer)]) h' →
  cell (used_ptrs h') loc = Some 1 ∧
  cell (data_ptrs h') loc = Some kmer ∧
  ∀ loc', loc' ≠ loc → cell (data_ptrs h') loc' = cell (data_ptrs h) loc'.
Proof.
  intros Hrep.
  destruct (insert_success_state _ _ _ _ _ Hrep) as (h1 & _ & _ & Hd & Hdata).
  split; [|split].
  - revert Hrep. rewrite bind_app, bind_singleton, <- app_assoc. simpl.
    intros (h2 & _ & Hr)%replays_app_inv.
    inversion Hr as [|e1 tr1 ha hb hc He1 Hr1]; subst.
    inversion He1 as [l prev hx Hcell| | | |]; subst.
    inversion Hr1 as [|e2 tr2 hd he hf He2 Hr2]; subst.
    inversion He2; subst.
    inversion Hr2 as [|e3 tr3 hg hh hi He3 Hr3]; subst.
    inversion He3; subst. inversion Hr3; subst. simpl.
    apply cell_store_eq. eauto.
  - rewrite Hdata. by apply cell_store_eq.
  - intros loc' Hne. rewrite Hdata. by apply cell_store_ne.
Qed.

(** X7: a successful [insert] makes exactly one remote write, of its
    record, at the location of its last fetch-add, the one that returned
    0; afterwards that location holds the record, its counter is 1, and
    every other location holds the record it held. *)
Theorem insert_writes_one_record (kmer : kmer_pair) (h h' : HashMap) (tr : trace) :
  insert kmer h = Done true h' tr →
  ∃ loc,
    last (fetch_adds tr) = Some (loc, 0) ∧ rputs tr = [(loc, kmer)] ∧
    cell (used_ptrs h') loc = Some 1 ∧
    cell (data_ptrs h') loc = Some kmer ∧
    ∀ loc', loc' ≠ loc → cell (data_ptrs h') loc' = cell (data_ptrs h) loc'.
Proof.
  intros Hi. pose proof (traced_insert kmer _ _ _ _ Hi) as Hrep.
  unfold insert in Hi.
  apply insert_loop_shape in Hi as (ps & _ & ps0 & loc & -> & _ & _ & ->).
  exists loc. rewrite fetch_adds_app, fetch_adds_probes, rputs_app, rputs_probes.
  simpl. rewrite app_nil_r, last_snoc.
  split; [done|]. split; [done|]. by apply (insert_success_effect kmer h h' ps0 loc).
Qed.

(** The locations [insert] requests are those of its probe sequence. *)
Lemma insert_probe_locs kmer h b h' tr :
  insert kmer h = Done b h' tr →
  Z.of_nat (length (fetch_adds tr)) ≤ Z.of_nat (Z.to_nat (size h)) ∧
  ∀ i loc, (fetch_adds tr).*1 !! i = Some loc →
    locate_slot h (probe_slot h (to_u64 (kmer_pair_hash kmer)) (Z.of_nat i)) = Some loc.
Proof.
  intros Hi. unfold insert in Hi.
  apply insert_loop_shape in Hi as (ps & Hlocs & Hshape).
  assert (Hfa : fetch_adds tr = ps ∧ (length ps ≤ Z.to_nat (size h))%nat) .
  { destruct b.
    - destruct Hshape as (? & ? & _ & _ & ? & ->).
      by rewrite fetch_adds_app, fetch_adds_probes, app_nil_r.
    - destruct Hshape as (? & _ & ->). split; [apply fetch_adds_probes|lia]. }
  destruct Hfa as [-> Hlen]. split; [lia|].
  intros i loc (lp & -> & Hlp)%list_lookup_fmap_Some_1. by apply Hlocs in Hlp.
Qed.

(** They come in two runs without repetition. *)
Lemma insert_runs kmer h b h' tr :
  wf_table h → insert kmer h = Done b h' tr →
  NoDup (take (Z.to_nat (2 ^ 64 - to_u64 (kmer_pair_hash kmer))) (fetch_adds tr).*1) ∧
  NoDup (drop (Z.to_nat (2 ^ 64 - to_u64 (kmer_pair_hash kmer))) (fetch_adds tr).*1).
Proof.
  intros Hwf Hi. destruct (insert_probe_locs _ _ _ _ _ Hi) as [Hlen Hlocs].
  pose proof (wf_size h Hwf). unfold size in *.
  apply (probe_runs h); [done|apply to_u64_range| |done].
  rewrite length_fmap. unfold size. lia.
Qed.

(** A free slot on the probe sequence ends [insert] with success, at that
    probe at the latest. *)
Lemma insert_free_slot kmer h probe loc b h' tr :
  insert kmer h = Done b h' tr → 0 ≤ probe < size h →
  locate_slot h (probe_slot h (to_u64 (kmer_pair_hash kmer)) probe) = Some loc →
  cell (used_ptrs h) loc = Some 0 →
  b = true ∧ Z.of_nat (length (fetch_adds tr)) ≤ probe + 1.
Proof.
  intros Hi Hp Hloc Hc. pose proof (traced_insert kmer _ _ _ _ Hi) as Hrep.
  unfold insert in Hi.
  apply insert_loop_shape in Hi as (ps & Hlocs & Hshape).
  assert (Hhit : ∀ ps1 : list (SlotLoc * Z), (Z.to_nat probe < length ps1)%nat →
    (∀ i lp, ps1 !! i = Some lp → ps !! i = Some lp) →
    0 < fetch_adds_on loc (ps1 ≫= probe_events)).
  { intros ps1 Hlt Hsub. apply fetch_adds_on_pos. rewrite fetch_adds_probes.
    destruct (lookup_lt_is_Some_2 ps1 _ Hlt) as [lp Hlp].
    pose proof (Hlocs _ _ (Hsub _ _ Hlp)) as Hl.
    rewrite Z.add_0_l, Z2Nat.id, Hloc in Hl by lia. injection Hl as Hl.
    apply list_elem_of_fmap. exists lp. split; [done|]. by eapply list_elem_of_lookup_2. }
  destruct b.
  - split; [done|].
    destruct Hshape as (ps0 & loc' & -> & Hnz & _ & ->).
    rewrite fetch_adds_app, fetch_adds_probes, app_nil_r, length_app. simpl.
    destruct (decide (Z.to_nat probe < length ps0)%nat) as [Hlt|]; [exfalso|lia].
    destruct (insert_success_state _ _ _ _ _ Hrep) as (h1 & Hr0 & _).
    assert (Hpos : 0 < fetch_adds_on loc (ps0 ≫= probe_events)).
    { apply Hhit; [done|]. intros i lp Hi. by apply lookup_app_l_Some. }
    rewrite (replays_free_untouched _ _ _ loc Hr0) in Hpos; [lia| |done].
    by rewrite fetch_adds_probes.
  - exfalso. destruct Hshape as (Hlen & Hnz & ->).
    assert (Hpos : 0 < fetch_adds_on loc (ps ≫= probe_events)).
    { apply Hhit; [unfold size in *; lia|done]. }
    rewrite (replays_free_untouched _ _ _ loc Hrep) in Hpos; [lia| |done].
    by rewrite fetch_adds_probes.
Qed.

(** X8: on a table built with a segment size that fits an [int], an
    [insert] whose probe sequence meets a free slot returns success, after
    no more probes than it takes to reach that slot. *)
Theorem insert_wins_free_slot (ranks capacity : Z) (h0 h : HashMap)
    (kmer : kmer_pair) (probe : Z) (loc : SlotLoc) :
  1 ≤ ranks ≤ INT_MAX → 0 ≤ capacity → capacity / ranks + 1 ≤ INT_MAX →
  HashMap_new ranks capacity = Some h0 → reachable h0 h →
  0 ≤ probe < capacity →
  locate_slot h (to_u64 (to_u64 (kmer_pair_hash kmer) + probe) mod capacity) = Some loc →
  cell (used_ptrs h) loc = Some 0 →
  ∃ h' tr, insert kmer h = Done true h' tr ∧
           Z.of_nat (length (fetch_adds tr)) ≤ probe + 1.
Proof.
  intros Hr Hs Hl Hnew Hreach Hp Hloc Hc.
  destruct (reachable_new _ _ _ _ Hr Hs Hl Hnew Hreach) as (_ & Hwf & Hsz & _).
  destruct (insert_total kmer h Hwf) as (b & h' & tr & Hi).
  destruct (insert_free_slot kmer h probe loc b h' tr Hi) as [-> Hlen]; try done.
  - unfold size. lia.
  - unfold probe_slot, size. by rewrite Hsz.
  - by exists h', tr.
Qed.

(** Without a wrap of the 64-bit sum the probe sequence visits every slot. *)
Lemma probe_sequence_covers C hash slot :
  0 ≤ hash → hash + C ≤ 2 ^ 64 → 0 ≤ slot < C →
  ∃ probe, 0 ≤ probe < C ∧ to_u64 (hash + probe) mod C = slot.
Proof.
  intros Hh Hsum Hslot. exists ((slot - hash) mod C).
  pose proof (Z.mod_pos_bound (slot - hash) C). split; [lia|].
  rewrite to_u64_small by lia.
  rewrite Z.add_mod_idemp_r by lia.
  replace (hash + (slot - hash)) with slot by lia. apply Z.mod_small. lia.
Qed.

(** X9: on such a table, when [hash + capacity] does not exceed 2^64 the
    probe sequence visits every slot, and [insert] returns failure only if
    every slot of the table is claimed. *)
Theorem insert_failure_means_full (ranks capacity : Z) (h0 h h' : HashMap)
    (kmer : kmer_pair) (tr : trace) :
  1 ≤ ranks ≤ INT_MAX → 0 ≤ capacity → capacity / ranks + 1 ≤ INT_MAX →
  HashMap_new ranks capacity = Some h0 → reachable h0 h →
  to_u64 (kmer_pair_hash kmer) + capacity ≤ 2 ^ 64 →
  insert kmer h = Done false h' tr →
  ∀ slot, 0 ≤ slot < capacity →
    ∃ loc c, locate_slot h slot = Some loc ∧ cell (used_ptrs h) loc = Some c ∧ c ≠ 0.
Proof.
  intros Hr Hs Hl Hnew Hreach Hsum Hi slot Hslot.
  destruct (reachable_new _ _ _ _ Hr Hs Hl Hnew Hreach) as (_ & Hwf & Hsz & _).
  rewrite <- Hsz in *.
  destruct (locate_slot_cells h slot Hwf Hslot) as (loc & Hloc & _ & [c Hc] & _).
  exists loc, c. split; [done|]. split; [done|]. intros ->.
  pose proof (to_u64_range (kmer_pair_hash kmer)) as Hhash.
  destruct (probe_sequence_covers (my_size h) (to_u64 (kmer_pair_hash kmer)) slot)
    as (probe & Hp & Hprobe); [lia..|].
  destruct (insert_free_slot kmer h probe loc false h' tr Hi) as [? _]; try done.
  unfold probe_slot, size. by rewrite Hprobe.
Qed.

(** X10: an [insert] requests no location more than twice, and no
    location more than once when [hash + capacity] does not exceed 2^64:
    an [insert] adds at most 2 to a counter. *)
Theorem insert_requests_a_slot_twice_at_most (ranks capacity : Z) (h0 h h' : HashMap)
    (kmer : kmer_pair) (b : bool) (tr : trace) (loc : SlotLoc) :
  1 ≤ ranks ≤ INT_MAX → 0 ≤ capacity → capacity / ranks + 1 ≤ INT_MAX →
  HashMap_new ranks capacity = Some h0 → reachable h0 h →
  insert kmer h = Done b h' tr →
  0 ≤ fetch_adds_on loc tr ≤ 2 ∧
  (to_u64 (kmer_pair_hash kmer) + capacity ≤ 2 ^ 64 → fetch_adds_on loc tr ≤ 1).
Proof.
  intros Hr Hs Hl Hnew Hreach Hi.
  destruct (reachable_new _ _ _ _ Hr Hs Hl Hnew Hreach) as (_ & Hwf & Hsz & _).
  destruct (insert_runs kmer h b h' tr Hwf Hi) as [Hrun1 Hrun2].
  split; [split; [apply fetch_adds_on_nonneg|]|].
  - rewrite fetch_adds_on_count.
    pose proof (two_runs_filter_le loc _ _ Hrun1 Hrun2). lia.
  - intros Hsum. rewrite fetch_adds_on_count.
    destruct (insert_probe_locs _ _ _ _ _ Hi) as [Hlen _]. unfold size in Hlen.
    rewrite take_ge in Hrun1 by (rewrite length_fmap; lia).
    pose proof (NoDup_filter_le loc _ Hrun1). lia.
Qed.

(** X11: on such a table whose slots are all claimed, with counters that
    two more fetch-adds do not take past [INT_MAX], [insert] returns
    failure. *)
Theorem insert_into_full_table_fails (ranks capacity : Z) (h0 h : HashMap)
    (kmer : kmer_pair) :
  1 ≤ ranks ≤ INT_MAX → 0 ≤ capacity → capacity / ranks + 1 ≤ INT_MAX →
  HashMap_new ranks capacity = Some h0 → reachable h0 h →
  (∀ slot loc c, 0 ≤ slot < capacity → locate_slot h slot = Some loc →
     cell (used_ptrs h) loc = Some c → 0 < c ≤ INT_MAX - 2) →
  ∃ h' tr, insert kmer h = Done false h' tr.
Proof.
  intros Hr Hs Hl Hnew Hreach Hfull. unfold INT_MAX in Hfull.
  destruct (reachable_new _ _ _ _ Hr Hs Hl Hnew Hreach) as (_ & Hwf & Hsz & _).
  destruct (insert_total kmer h Hwf) as (b & h' & tr & Hi).
  destruct b; [exfalso|by exists h', tr].
  pose proof (traced_insert kmer _ _ _ _ Hi) as Hrep.
  destruct (insert_runs kmer h _ h' tr Hwf Hi) as [Hrun1 Hrun2].
  destruct (insert_probe_locs _ _ _ _ _ Hi) as [Hlen Hlocs].
  pose proof Hi as Hshape. unfold insert in Hshape.
  apply insert_loop_shape in Hshape as (ps & _ & ps0 & loc & -> & _ & _ & ->).
  destruct (insert_success_state _ _ _ _ _ Hrep) as (h1 & Hr0 & Hc1 & _).
  rewrite fetch_adds_app, fetch_adds_probes, app_nil_r in *.
  assert (Hwin : (ps0 ++ [(loc, 0)]).*1 !! length ps0 = Some loc).
  { by rewrite list_lookup_fmap, lookup_app_r, Nat.sub_diag by lia. }
  pose proof (Hlocs _ _ Hwin) as Hloc.
  pose proof (lookup_lt_Some _ _ _ Hwin) as Hlt. rewrite length_fmap in Hlt.
  destruct (locate_slot_cells h
    (probe_slot h (to_u64 (kmer_pair_hash kmer)) (Z.of_nat (length ps0))) Hwf)
    as (loc' & Hloc' & _ & [c Hc] & _).
  { apply probe_slot_range. unfold size in *. lia. }
  rewrite Hloc in Hloc'. injection Hloc' as <-.
  assert (Hcb : 0 < c ≤ 2 ^ 31 - 1 - 2).
  { eapply (Hfull _ loc c); [|exact Hloc|exact Hc].
    rewrite <- Hsz. apply probe_slot_range. unfold size in *. lia. }
  pose proof (replays_counter _ _ _ loc c Hr0 Hc) as Hc1'.
  rewrite Hc1 in Hc1'. injection Hc1' as Hc1'.
  assert (Hhits : 0 ≤ fetch_adds_on loc (ps0 ≫= probe_events) ≤ 2).
  { split; [apply fetch_adds_on_nonneg|].
    pose proof (two_runs_filter_le loc _ _ Hrun1 Hrun2) as Hle.
    rewrite fetch_adds_on_count, fetch_adds_probes.
    rewrite fmap_app, filter_app, length_app in Hle. lia. }
  case_decide; [lia|]. rewrite to_int_small in Hc1' by lia. lia.
Qed.

(** ** Records are written once *)

Lemma replays_rputs_once tr : ∀ h h' (base : SlotLoc → Z),
  replays h tr h' → claimed_writes tr →
  (∀ loc c, cell (used_ptrs h) loc = Some c → c = to_int (base loc)) →
  (∀ loc, 0 ≤ base loc ∧ base loc + fetch_adds_on loc tr ≤ 2 ^ 32) →
  NoDup (rputs tr).*1 ∧ ∀ loc, loc ∈ (rputs tr).*1 → base loc = 0.
Proof.
  intros h h' base Hrep Hcw. revert h h' base Hrep.
  assert (Hstep : ∀ tr' h1 h2 h3 (base : SlotLoc → Z) l prev,
    (∀ h h' base, replays h tr' h' →
       (∀ loc c, cell (used_ptrs h) loc = Some c → c = to_int (base loc)) →
       (∀ loc, 0 ≤ base loc ∧ base loc + fetch_adds_on loc tr' ≤ 2 ^ 32) →
       NoDup (rputs tr').*1 ∧ ∀ loc, loc ∈ (rputs tr').*1 → base loc = 0) →
    cell (used_ptrs h1) l = Some prev →
    replays h2 tr' h3 →
    used_ptrs h2 = store (used_ptrs h1) l (to_int (prev + 1)) →
    (∀ loc c, cell (used_ptrs h1) loc = Some c → c = to_int (base loc)) →
    (∀ loc, 0 ≤ base loc ∧
            base loc + ((if bool_decide (l = loc) then 1 else 0) + fetch_adds_on loc tr')
              ≤ 2 ^ 32) →
    NoDup (rputs tr').*1 ∧
    ∀ loc, loc ∈ (rputs tr').*1 → base loc = 0 ∧ loc ≠ l).
  { intros tr' h1 h2 h3 base l prev IH Hcell Hr Hused Hcells Hbase.
    destruct (IH h2 h3 (λ l', if decide (l' = l) then base l' + 1 else base l') Hr)
      as [Hnd Hzero].
    - intros l' c Hc. rewrite Hused in Hc. destruct (decide (l' = l)) as [->|Hl].
      + rewrite cell_store_eq in Hc by eauto. injection Hc as <-.
        rewrite (Hcells _ _ Hcell). apply to_int_add_l.
      + rewrite cell_store_ne in Hc by eauto. by apply Hcells.
    - intros l'. destruct (Hbase l') as [H0 Hle].
      destruct (decide (l' = l)) as [->|Hl].
      + rewrite bool_decide_true in Hle by done. lia.
      + rewrite bool_decide_false in Hle by done. lia.
    - split; [done|]. intros l' Hin. apply Hzero in Hin.
      destruct (decide (l' = l)) as [->|Hl]; [|done].
      destruct (Hbase l). lia. }
  induction Hcw as [|loc v tr Hcw IH|e tr He Hcw IH]; intros h h' base Hrep Hcells Hbase.
  - split; [constructor|]. intros loc Hin. by apply elem_of_nil in Hin.
  - inversion Hrep as [|e1 tr1 ha hb hc He1 Hr1]; subst.
    inversion He1 as [l prev hx Hcell| | | |]; subst.
    inversion Hr1 as [|e2 tr2 hd he hf He2 Hr2]; subst.
    inversion He2; subst.
    inversion Hr2 as [|e3 tr3 hg hh hi He3 Hr3]; subst.
    inversion He3 as [| |l v' hx Hd| |]; subst.
    assert (Hb0 : base loc = 0).
    { pose proof (Hcells _ _ Hcell) as Hz. symmetry in Hz. apply to_int_zero in Hz.
      destruct (Hbase loc) as [H0 Hle]. simpl in Hle.
      rewrite bool_decide_true in Hle by done.
      pose proof (fetch_adds_on_nonneg loc tr).
      rewrite Z.mod_small in Hz; lia. }
    destruct (Hstep tr h _ h' base loc 0 IH Hcell Hr3 eq_refl Hcells) as [Hnd Hzero].
    { intros l. destruct (Hbase l) as [H0 Hle]. simpl in Hle. split; [done|]. lia. }
    simpl. split.
    + apply NoDup_cons. split; [|done]. intros Hin. by apply Hzero in Hin as [_ ?].
    + intros l [->|Hin]%elem_of_cons; [done|]. by apply Hzero in Hin as [? _].
  - inversion Hrep as [|e1 tr1 ha hb hc He1 Hr1]; subst.
    assert (Hrp : rputs (e :: tr) = rputs tr).
    { destruct e as [[l p|l p|l p|l p]|o]; try done. by destruct (He l p). }
    rewrite Hrp.
    destruct He1 as [l prev hx Hcell|l v hx Hcell|l v hx Hcell|l v hx Hcell|o hx].
    + destruct (Hstep tr hx _ h' base l prev IH Hcell Hr1 eq_refl Hcells) as [Hnd Hzero].
      { intros l'. destruct (Hbase l') as [H0 Hle]. simpl in Hle. split; [done|]. lia. }
      split; [done|]. intros l' Hin. by apply Hzero in Hin as [? _].
    + by apply (IH _ _ base Hr1).
    + by destruct (He l v).
    + by apply (IH _ _ base Hr1).
    + by apply (IH _ _ base Hr1).
Qed.

(** X12: in a state reached from the table the constructor builds by
    calls of [insert], [find] and [request_slot], as long as no slot has
    been requested more than 2^32 times, no location has been written
    twice: a record, once written, is never overwritten. *)
Theorem records_written_once (ranks capacity : Z) (h0 h : HashMap) (tr : trace) :
  HashMap_new ranks capacity = Some h0 → history h0 tr h →
  (∀ loc, fetch_adds_on loc tr ≤ 2 ^ 32) →
  NoDup (rputs tr).*1.
Proof.
  intros Hnew Hhist Hbound.
  apply (replays_rputs_once tr h0 h (λ _, 0)).
  - by apply history_replays.
  - by eapply history_claimed_writes.
  - intros loc c Hc. by rewrite (proj1 (new_cells _ _ _ loc Hnew) c Hc).
  - intros loc. split; [done|]. rewrite Z.add_0_l. apply Hbound.
Qed.

(** ** Finding what was just inserted *)


(** ** The new table and its shape *)


Lemma store_shape {T} (p : list (list T)) loc v : length <$> store p loc v = length <$> p.
Proof.
  apply list_eq. intros i. rewrite !list_lookup_fmap. unfold store.
  destruct (decide (i = Z.to_nat (rank loc))) as [->|Hne].
  - rewrite list_lookup_alter_eq. destruct (p !! _); simpl; [|done].
    by rewrite length_insert.
  - by rewrite list_lookup_alter_ne.
Qed.

Lemma replays_shape h tr h' :
  replays h tr h' →
  length <$> used_ptrs h' = length <$> used_ptrs h ∧
  length <$> data_ptrs h' = length <$> data_ptrs h.
Proof.
  induction 1 as [|e tr h1 h2 h3 He _ [IHu IHd]]; [done|].
  rewrite IHu, IHd. destruct He; simpl; rewrite ?store_shape; done.
Qed.

(** X15: no call of [insert], [find] or [request_slot] resizes the table:
    [size()], [slots_per_rank] and the length of every segment stay what
    they were. *)
Theorem operations_keep_the_shape (o : op) (h h' : HashMap) (tr : trace) :
  exec o h = Done tt h' tr →
  my_size h' = my_size h ∧ slots_per_rank h' = slots_per_rank h ∧
  length <$> used_ptrs h' = length <$> used_ptrs h ∧
  length <$> data_ptrs h' = length <$> data_ptrs h.
Proof.
  intros Hrep%traced_exec.
  destruct (replays_frame _ _ _ Hrep) as (? & ? & _).
  destruct (replays_shape _ _ _ Hrep). done.
Qed.

End Properties.

(** ** Concrete tables *)

Section Examples.

Local Existing Instance ZKmer.

(** Four keys that hash to the four slots of a table of capacity 4: every
    [insert] succeeds and every key is found. *)
Example exact_saturation :
  ∃ h tr,
    insert_all [zpair 8 1; zpair 9 2; zpair 10 3; zpair 11 4] (table 2 4) =
      Done [true; true; true; true] h tr ∧
    (∃ tr', find 8 h = Done (true, zpair 8 1) h tr') ∧
    (∃ tr', find 9 h = Done (true, zpair 9 2) h tr') ∧
    (∃ tr', find 10 h = Done (true, zpair 10 3) h tr') ∧
    (∃ tr', find 11 h = Done (true, zpair 11 4) h tr').
Proof.
  eexists _, _. split; [vm_compute; reflexivity|].
  repeat split; eexists; vm_compute; reflexivity.
Qed.

(** Three records of hash [2^64 - 1] in a table of capacity 3: the probes
    wrap around to slots 0, 0 and 1, and the third [insert] fails with
    slot 2 still free. *)
Example wrapped_probes_miss_a_slot :
  ∃ h tr,
    insert_all [zpair (2 ^ 64 - 1) 1; zpair (2 ^ 64 - 1) 2; zpair (2 ^ 64 - 1) 3]
               (table 1 3) = Done [true; true; false] h tr ∧
    used_ptrs h = [[5; 2; 0; 0]].
Proof. eexists _, _. split; vm_compute; reflexivity. Qed.

Lemma find_requires_capacity_witness :
  my_size (table 1 0) = 0 ∧
  ((∀ key_kmer, find key_kmer (table 1 0) = Undefined DivisionByZero []) ∧
   (∀ kmer, insert kmer (table 1 0) = Done false (table 1 0) [])).
Proof. split; [reflexivity|]. apply (find_requires_capacity (table 1 0)). reflexivity. Defined.

(** C7 fails as stated: for one participant and [size = 2^32] the sum
    [size / ranks + 1] is narrowed to the [int] 1; the table is built with
    one slot per rank, far fewer than [size]. *)
Lemma partition_map_counterexample :
  ∃ h, HashMap_new 1 (2 ^ 32) = Some h ∧
       slots_per_rank h ≠ 2 ^ 32 / 1 + 1 ∧
       ¬ (2 ^ 32 ≤ 1 * slots_per_rank h).
Proof.
  eexists. split; [vm_compute; reflexivity|]. simpl.
  rewrite Z.div_1_r. split; lia.
Qed.

Lemma partition_map_witness :
  (1 ≤ 2 ≤ INT_MAX ∧ 0 ≤ 4 ∧ 4 / 2 + 1 ≤ INT_MAX) ∧
  ∃ h, HashMap_new 2 4 = Some h ∧
    (∀ h', HashMap_new 2 4 = Some h' → slots_per_rank h' = slots_per_rank h) ∧
    slots_per_rank h = 4 / 2 + 1 ∧
    4 ≤ 2 * slots_per_rank h ∧
    ∀ slot, 0 ≤ slot < 4 →
      locate_slot h slot =
        Some {| rank := slot / slots_per_rank h; offset := slot mod slots_per_rank h |} ∧
      locate slot h =
        Done {| rank := slot / slots_per_rank h; offset := slot mod slots_per_rank h |} h [].
Proof.
  split; [vm_compute; intuition discriminate|].
  apply (partition_map 2 4); vm_compute; intuition discriminate.
Defined.

(** C9 fails as stated: in the table built for one participant and
    [size = 2^32], slot 1 is located on rank 1, which does not exist. *)
Lemma locate_slot_in_segment_counterexample :
  ∃ h loc, HashMap_new 1 (2 ^ 32) = Some h ∧ 0 ≤ 1 < my_size h ∧
           locate_slot h 1 = Some loc ∧ ¬ in_segment h loc.
Proof.
  eexists _, _. split; [vm_compute; reflexivity|]. split; [simpl; lia|].
  split; [vm_compute; reflexivity|]. unfold in_segment. simpl. lia.
Qed.

Lemma locate_slot_in_segment_witness :
  (1 ≤ 2 ≤ INT_MAX ∧ 0 ≤ 4 ∧ 4 / 2 + 1 ≤ INT_MAX) ∧
  HashMap_new 2 4 = Some (table 2 4) ∧ reachable (table 2 4) (table 2 4) ∧
  ((∀ slot, 0 ≤ slot < 4 →
     ∃ loc, locate_slot (table 2 4) slot = Some loc ∧
            0 ≤ rank loc < 2 ∧ 0 ≤ offset loc < slots_per_rank (table 2 4)) ∧
   (∀ kmer, ∃ b h' tr, insert kmer (table 2 4) = Done b h' tr ∧
                       accesses_in_segment (table 2 4) tr) ∧
   (∀ key_kmer, 0 < 4 →
     ∃ r h' tr, find key_kmer (table 2 4) = Done r h' tr ∧
                accesses_in_segment (table 2 4) tr)).
Proof.
  split; [vm_compute; intuition discriminate|].
  split; [reflexivity|]. split; [exists []; constructor|].
  apply (locate_slot_in_segment 2 4 (table 2 4) (table 2 4)).
  - vm_compute; intuition discriminate.
  - vm_compute; discriminate.
  - vm_compute; discriminate.
  - reflexivity.
  - exists []; constructor.
Defined.

(** C4 fails as stated: the trace of an [insert] into an empty table ends
    with the issue of the remote write, which nothing waits on. *)
Lemma waits_except_for_rput_counterexample :
  ∃ b h' tr, insert (zpair 5 50) (table 1 1) = Done b h' tr ∧ ¬ blocking tr.
Proof.
  eexists _, _, _. split; [vm_compute; reflexivity|].
  intros Hb. inversion Hb as [|o tr' Hb']; subst. inversion Hb'.
Qed.



(** C2 fails as stated: with [capacity = 3] and [hash = 2^64 - 1] the
    second probe requests slot [(hash + 1) mod 2^64 mod 3 = 0], not slot
    [(hash + 1) mod 3 = 1]. *)
Lemma insert_probes_in_order_counterexample :
  ∃ h1 tr1 b h2 tr2 lp,
    insert (zpair 0 0) (table 1 3) = Done true h1 tr1 ∧
    insert (zpair (2 ^ 64 - 1) 1) h1 = Done b h2 tr2 ∧
    fetch_adds tr2 !! 1%nat = Some lp ∧
    locate_slot h1 ((kmer_pair_hash (zpair (2 ^ 64 - 1) 1) + 1) mod 3) ≠ Some lp.1.
Proof.
  eexists _, _, _, _, _, _. split; [vm_compute; reflexivity|].
  split; [vm_compute; reflexivity|]. split; [reflexivity|].
  vm_compute. discriminate.
Qed.

Lemma insert_probes_in_order_witness :
  (1 ≤ 2 ≤ INT_MAX ∧ 0 ≤ 4 ∧ 4 / 2 + 1 ≤ INT_MAX) ∧
  HashMap_new 2 4 = Some (table 2 4) ∧ reachable (table 2 4) (table 2 4) ∧
  ∃ b h' tr,
    insert (zpair 5 50) (table 2 4) = Done b h' tr ∧
    (∀ i lp, fetch_adds tr !! i = Some lp →
       locate_slot (table 2 4)
         (to_u64 (to_u64 (kmer_pair_hash (zpair 5 50)) + Z.of_nat i) mod 4) = Some lp.1) ∧
    (b = true ↔ ∃ lp, lp ∈ fetch_adds tr ∧ lp.2 = 0) ∧
    if b then
      ∃ ps0 loc, fetch_adds tr = ps0 ++ [(loc, 0)] ∧ Forall (λ lp, lp.2 ≠ 0) ps0 ∧
                 Z.of_nat (length (fetch_adds tr)) ≤ 4 ∧
                 rputs tr = [(loc, zpair 5 50)]
    else
      Z.of_nat (length (fetch_adds tr)) = 4 ∧
      Forall (λ lp, lp.2 ≠ 0) (fetch_adds tr) ∧ rputs tr = [].
Proof.
  split; [vm_compute; intuition discriminate|].
  split; [reflexivity|]. split; [exists []; constructor|].
  apply (insert_probes_in_order 2 4 (table 2 4) (table 2 4) (zpair 5 50)).
  - vm_compute; intuition discriminate.
  - vm_compute; discriminate.
  - vm_compute; discriminate.
  - reflexivity.
  - exists []; constructor.
Defined.

(** C8 fails as stated: on the empty table [find] returns "found", with
    the blank record, for the key of the blank record. *)
Lemma find_not_found_counterexample :
  ∃ tr, find (blank_kmer : @pkmer_t ZKmer) (table 1 1) =
        Done (true, blank_pair) (table 1 1) tr.
Proof. eexists. vm_compute. reflexivity. Qed.

Lemma find_not_found_witness :
  (1 ≤ 2 ≤ INT_MAX ∧ 0 < 4 ∧ 4 / 2 + 1 ≤ INT_MAX) ∧
  HashMap_new 2 4 = Some (table 2 4) ∧ reachable (table 2 4) (table 2 4) ∧
  ((∃ r v tr, find 7 (table 2 4) = Done (r, v) (table 2 4) tr ∧
      (r = false ↔
       ∀ probe val, 0 ≤ probe < 4 →
         data_at (table 2 4) (to_u64 (to_u64 (pkmer_hash 7) + probe) mod 4) = Some val →
         kmer val ≠ 7) ∧
      (r = false → Z.of_nat (length (rgets tr)) = 4)) ∧
   (∃ tr0, find 7 (table 2 4) =
           Done (bool_decide (blank_kmer = 7), blank_pair) (table 2 4) tr0)).
Proof.
  split; [vm_compute; intuition discriminate|].
  split; [reflexivity|]. split; [exists []; constructor|].
  apply (@find_not_found ZKmer 2 4 (table 2 4) (table 2 4) 7).
  - vm_compute; intuition discriminate.
  - reflexivity.
  - vm_compute; discriminate.
  - reflexivity.
  - exists []; constructor.
Defined.

(** C5 fails as stated: on the one-slot table the first call of
    [request_slot] on slot 0 receives 0, and so does the call that comes
    after 2^32 earlier ones, once the [int] counter has wrapped around. *)
Lemma one_winner_per_slot_counterexample :
  ∃ h1 tr1 h2 tr2,
    kth_request 0 0 (table 1 1) = Done 0 h1 tr1 ∧
    kth_request 0 (2 ^ 32) (table 1 1) = Done 0 h2 tr2.
Proof.
  pose (loc0 := {| rank := 0; offset := 0 |}).
  destruct (kth_request_value (table 1 1) 0 loc0 0) as (h1 & tr1 & H1); [done..|].
  destruct (kth_request_value (table 1 1) 0 loc0 (2 ^ 32)) as (h2 & tr2 & H2); [done..|].
  assert (Hw : to_int (Z.of_N (2 ^ 32)) = 0) by (vm_compute; reflexivity).
  rewrite Hw in H2. change (to_int (Z.of_N 0)) with 0 in H1.
  exists h1, tr1, h2, tr2. split; [exact H1|exact H2].
Qed.

Lemma one_winner_per_slot_witness :
  let loc0 := {| rank := 0; offset := 0 |} in
  locate_slot (table 1 1) 0 = Some loc0 ∧
  cell (used_ptrs (table 1 1)) loc0 = Some 0 ∧
  ∃ h' tr, kth_request 0 3 (table 1 1) = Done (to_int (Z.of_N 3)) h' tr ∧
           ((3 < 2 ^ 32)%N → (to_int (Z.of_N 3) = 0 ↔ 3%N = 0%N)).
Proof.
  intros loc0. split; [reflexivity|]. split; [reflexivity|].
  apply (one_winner_per_slot (table 1 1) 0 loc0 3); reflexivity.
Defined.

(** C6 fails as stated: after 2^32 - 1 calls of [request_slot] on slot 0
    of the one-slot table the counter holds -1, and one more call takes
    it back to 0. *)
Lemma counters_count_fetch_adds_counterexample :
  ∃ h h' tr loc c,
    reachable (table 1 1) h ∧ exec (RequestSlot 0) h = Done tt h' tr ∧
    cell (used_ptrs h) loc = Some c ∧ c ≠ 0 ∧ cell (used_ptrs h') loc = Some 0.
Proof.
  pose (loc0 := {| rank := 0; offset := 0 |}).
  destruct (request_times_counter (table 1 1) 0 loc0 (2 ^ 32 - 1))
    as (h & tr & _ & Hc & Hspr & Hhist); [done..|].
  assert (Hw : to_int (Z.of_N (2 ^ 32 - 1)) = -1) by (vm_compute; reflexivity).
  rewrite Hw in Hc.
  assert (Hloc : locate_slot h 0 = Some loc0) by by rewrite (locate_slot_frame (table 1 1)).
  eexists h, _, _, loc0, (-1). split; [by exists tr|].
  split; [by apply (exec_request_slot 0 h loc0 (-1))|].
  split; [done|]. split; [done|]. simpl. apply cell_store_eq. eauto.
Qed.

Lemma counters_count_fetch_adds_witness :
  let loc0 := {| rank := 0; offset := 0 |} in
  let tr := [Issue (FetchAdd loc0 0); Await (FetchAdd loc0 0);
             Issue (Rput loc0 (zpair 5 50))] in
  HashMap_new 1 1 = Some (table 1 1) ∧ history (table 1 1) tr full_table ∧
  (claimed_writes tr ∧
   (∀ loc c, cell (used_ptrs full_table) loc = Some c →
      c = to_int (fetch_adds_on loc tr) ∧
      (0 < fetch_adds_on loc tr < 2 ^ 32 → c ≠ 0)) ∧
   (∀ o h' tr' loc c c',
      exec o full_table = Done tt h' tr' →
      cell (used_ptrs full_table) loc = Some c → cell (used_ptrs h') loc = Some c' →
      c ≠ 0 → fetch_adds_on loc (tr ++ tr') < 2 ^ 32 → c' ≠ 0)).
Proof.
  intros loc0 tr.
  assert (Hhist : history (table 1 1) tr full_table).
  { apply (history_step (table 1 1) [] (table 1 1) (Insert (zpair 5 50)) tr full_table);
      [constructor|reflexivity]. }
  split; [reflexivity|]. split; [exact Hhist|].
  apply (counters_count_fetch_adds 1 1 (table 1 1) full_table tr); [reflexivity|exact Hhist].
Defined.

(** C1 fails as stated: the table built for one participant and
    [capacity = 2^32] has one slot per rank; the first probe of the record
    of key 1 is located on rank 1, outside every segment, and [insert]
    does not return. *)
Lemma inserted_keys_are_found_counterexample :
  HashMap_new 1 (2 ^ 32) = Some (table 1 (2 ^ 32)) ∧
  2 * Z.of_nat (length [zpair 1 10]) ≤ 2 ^ 32 ∧
  insert_all [zpair 1 10] (table 1 (2 ^ 32)) = Undefined OutOfSegment [].
Proof.
  split; [reflexivity|]. split; [simpl; lia|].
  unfold insert_all. apply bind_Undefined. left. unfold insert.
  replace (Z.to_nat (size (table 1 (2 ^ 32)))) with (S (Z.to_nat (2 ^ 32 - 1)))
    by (change (size (table 1 (2 ^ 32))) with (2 ^ 32); lia).
  apply (insert_out_of_segment _ _ _ _ {| rank := 1; offset := 0 |}).
  - change (size (table 1 (2 ^ 32))) with (2 ^ 32). lia.
  - vm_compute. reflexivity.
  - vm_compute. reflexivity.
Qed.

Lemma inserted_keys_are_found_witness :
  let kmers := [zpair 5 50; zpair 13 130; zpair 21 210] in
  (1 ≤ 2 ≤ INT_MAX ∧ 8 / 2 + 1 ≤ INT_MAX) ∧
  2 * Z.of_nat (length kmers) ≤ 8 ∧
  2 * Z.of_nat (length kmers) ≤ INT_MAX ∧
  HashMap_new 2 8 = Some (table 2 8) ∧
  ∃ h tr,
    insert_all kmers (table 2 8) = Done (replicate (length kmers) true) h tr ∧
    ∀ kmer0, kmer0 ∈ kmers →
      ∃ v tr', find (kmer kmer0) h = Done (true, v) h tr' ∧ kmer v = kmer kmer0.
Proof.
  intros kmers.
  split; [vm_compute; intuition discriminate|].
  split; [vm_compute; discriminate|]. split; [vm_compute; discriminate|].
  split; [reflexivity|].
  apply (inserted_keys_are_found 2 8 (table 2 8) kmers).
  - vm_compute; intuition discriminate.
  - vm_compute; discriminate.
  - vm_compute; discriminate.
  - vm_compute; discriminate.
  - reflexivity.
Defined.

(** ** Instances of the further properties *)

Lemma full_table_history : history (table 1 1) first_insert full_table.
Proof.
  apply (history_step (table 1 1) [] (table 1 1) (Insert (zpair 5 50)) first_insert full_table);
    [constructor|reflexivity].
Qed.

Lemma locate_slot_injective_witness :
  let loc := {| rank := 1; offset := 0 |} in
  (1 ≤ 2 ≤ INT_MAX ∧ 0 ≤ 4 ∧ 4 / 2 + 1 ≤ INT_MAX) ∧
  HashMap_new 2 4 = Some (table 2 4) ∧ reachable (table 2 4) (table 2 4) ∧
  (0 ≤ 3 < 4 ∧ 0 ≤ 3 < 4) ∧ locate_slot (table 2 4) 3 = Some loc ∧
  ((locate_slot (table 2 4) 3 = Some loc → 3 = 3) ∧
   3 = rank loc * slots_per_rank (table 2 4) + offset loc).
Proof.
  intros loc. split; [vm_compute; intuition discriminate|].
  split; [reflexivity|]. split; [exists []; constructor|].
  split; [lia|]. split; [reflexivity|].
  apply (locate_slot_injective 2 4 (table 2 4) (table 2 4) 3 3 loc).
  - vm_compute; intuition discriminate.
  - lia.
  - vm_compute; discriminate.
  - reflexivity.
  - exists []; constructor.
  - lia.
  - lia.
  - reflexivity.
Defined.


Lemma slot_used_counts_requests_witness :
  (1 ≤ 1 ≤ INT_MAX ∧ 0 ≤ 1 ∧ 1 / 1 + 1 ≤ INT_MAX) ∧
  HashMap_new 1 1 = Some (table 1 1) ∧ history (table 1 1) first_insert full_table ∧
  0 ≤ 0 < 1 ∧
  ∃ loc tr',
    locate_slot full_table 0 = Some loc ∧
    slot_used 0 full_table =
      Done (negb (bool_decide (fetch_adds_on loc first_insert mod 2 ^ 32 = 0)))
           full_table tr' ∧
    blocking tr'.
Proof.
  split; [vm_compute; intuition discriminate|].
  split; [reflexivity|]. split; [exact full_table_history|]. split; [lia|].
  apply (slot_used_counts_requests 1 1 (table 1 1) full_table first_insert 0).
  - vm_compute; intuition discriminate.
  - lia.
  - vm_compute; discriminate.
  - reflexivity.
  - exact full_table_history.
  - lia.
Defined.

Lemma find_only_reads_witness :
  let r := (true, zpair 5 50) in
  let tr := [Issue (Rget slot0_loc (zpair 5 50)); Await (Rget slot0_loc (zpair 5 50))] in
  find 5 full_table = Done r full_table tr ∧
  (full_table = full_table ∧ fetch_adds tr = [] ∧ rputs tr = [] ∧
   (1 ≤ length (rgets tr) ≤ S (Z.to_nat (size full_table - 1)))%nat ∧
   find 5 full_table = Done r full_table tr).
Proof.
  intros r tr. split; [reflexivity|].
  apply (@find_only_reads ZKmer 5 full_table full_table r tr). reflexivity.
Defined.

Lemma find_returns_first_match_witness :
  let tr := [Issue (Rget slot0_loc (zpair 5 50)); Await (Rget slot0_loc (zpair 5 50))] in
  find 5 full_table = Done (true, zpair 5 50) full_table tr ∧
  ∃ p : nat,
    length (rgets tr) = S p ∧
    data_at full_table (probe_slot full_table (to_u64 (pkmer_hash 5)) (Z.of_nat p))
      = Some (zpair 5 50) ∧
    kmer (zpair 5 50) = 5 ∧
    ∀ (q : nat) w, (q < p)%nat →
      data_at full_table (probe_slot full_table (to_u64 (pkmer_hash 5)) (Z.of_nat q)) = Some w →
      kmer w ≠ 5.
Proof.
  intros tr. split; [reflexivity|].
  apply (@find_returns_first_match ZKmer 5 full_table full_table (zpair 5 50) tr).
  reflexivity.
Defined.

Lemma find_failure_returns_last_read_witness :
  let tr := [Issue (Rget slot0_loc (zpair 5 50)); Await (Rget slot0_loc (zpair 5 50))] in
  0 ≤ size full_table ∧
  find 6 full_table = Done (false, zpair 5 50) full_table tr ∧
  (1 ≤ size full_table ∧ Z.of_nat (length (rgets tr)) = size full_table ∧
   data_at full_table (probe_slot full_table (to_u64 (pkmer_hash 6)) (size full_table - 1))
     = Some (zpair 5 50) ∧
   kmer (zpair 5 50) ≠ 6).
Proof.
  intros tr. split; [vm_compute; discriminate|]. split; [reflexivity|].
  apply (@find_failure_returns_last_read ZKmer 6 full_table full_table (zpair 5 50) tr).
  - vm_compute; discriminate.
  - reflexivity.
Defined.

Lemma insert_writes_one_record_witness :
  insert (zpair 5 50) (table 1 1) = Done true full_table first_insert ∧
  ∃ loc,
    last (fetch_adds first_insert) = Some (loc, 0) ∧
    rputs first_insert = [(loc, zpair 5 50)] ∧
    cell (used_ptrs full_table) loc = Some 1 ∧
    cell (data_ptrs full_table) loc = Some (zpair 5 50) ∧
    ∀ loc', loc' ≠ loc →
      cell (data_ptrs full_table) loc' = cell (data_ptrs (table 1 1)) loc'.
Proof.
  split; [reflexivity|].
  apply (insert_writes_one_record (zpair 5 50) (table 1 1) full_table first_insert).
  reflexivity.
Defined.

Lemma insert_wins_free_slot_witness :
  (1 ≤ 1 ≤ INT_MAX ∧ 0 ≤ 1 ∧ 1 / 1 + 1 ≤ INT_MAX) ∧
  HashMap_new 1 1 = Some (table 1 1) ∧ reachable (table 1 1) (table 1 1) ∧
  0 ≤ 0 < 1 ∧
  locate_slot (table 1 1) (to_u64 (to_u64 (kmer_pair_hash (zpair 5 50)) + 0) mod 1)
    = Some slot0_loc ∧
  cell (used_ptrs (table 1 1)) slot0_loc = Some 0 ∧
  ∃ h' tr, insert (zpair 5 50) (table 1 1) = Done true h' tr ∧
           Z.of_nat (length (fetch_adds tr)) ≤ 0 + 1.
Proof.
  split; [vm_compute; intuition discriminate|].
  split; [reflexivity|]. split; [exists []; constructor|]. split; [lia|].
  split; [reflexivity|]. split; [reflexivity|].
  apply (insert_wins_free_slot 1 1 (table 1 1) (table 1 1) (zpair 5 50) 0 slot0_loc).
  - vm_compute; intuition discriminate.
  - lia.
  - vm_compute; discriminate.
  - reflexivity.
  - exists []; constructor.
  - lia.
  - reflexivity.
  - reflexivity.
Defined.

Lemma insert_failure_means_full_witness :
  let h' := set_used full_table [[2; 0]] in
  let tr := [Issue (FetchAdd slot0_loc 1); Await (FetchAdd slot0_loc 1)] in
  (1 ≤ 1 ≤ INT_MAX ∧ 0 ≤ 1 ∧ 1 / 1 + 1 ≤ INT_MAX) ∧
  HashMap_new 1 1 = Some (table 1 1) ∧ reachable (table 1 1) full_table ∧
  to_u64 (kmer_pair_hash (zpair 6 60)) + 1 ≤ 2 ^ 64 ∧
  insert (zpair 6 60) full_table = Done false h' tr ∧
  ∀ slot, 0 ≤ slot < 1 →
    ∃ loc c, locate_slot full_table slot = Some loc ∧
             cell (used_ptrs full_table) loc = Some c ∧ c ≠ 0.
Proof.
  intros h' tr. split; [vm_compute; intuition discriminate|].
  split; [reflexivity|]. split; [exists first_insert; exact full_table_history|].
  split; [vm_compute; discriminate|]. split; [reflexivity|].
  apply (insert_failure_means_full 1 1 (table 1 1) full_table h' (zpair 6 60) tr).
  - vm_compute; intuition discriminate.
  - lia.
  - vm_compute; discriminate.
  - reflexivity.
  - exists first_insert; exact full_table_history.
  - vm_compute; discriminate.
  - reflexivity.
Defined.

Lemma insert_requests_a_slot_twice_at_most_witness :
  (1 ≤ 1 ≤ INT_MAX ∧ 0 ≤ 1 ∧ 1 / 1 + 1 ≤ INT_MAX) ∧
  HashMap_new 1 1 = Some (table 1 1) ∧ reachable (table 1 1) (table 1 1) ∧
  insert (zpair 5 50) (table 1 1) = Done true full_table first_insert ∧
  (0 ≤ fetch_adds_on slot0_loc first_insert ≤ 2 ∧
   (to_u64 (kmer_pair_hash (zpair 5 50)) + 1 ≤ 2 ^ 64 →
    fetch_adds_on slot0_loc first_insert ≤ 1)).
Proof.
  split; [vm_compute; intuition discriminate|].
  split; [reflexivity|]. split; [exists []; constructor|]. split; [reflexivity|].
  apply (insert_requests_a_slot_twice_at_most 1 1 (table 1 1) (table 1 1) full_table
           (zpair 5 50) true first_insert slot0_loc).
  - vm_compute; intuition discriminate.
  - lia.
  - vm_compute; discriminate.
  - reflexivity.
  - exists []; constructor.
  - reflexivity.
Defined.

Lemma full_table_is_full slot loc c :
  0 ≤ slot < 1 → locate_slot full_table slot = Some loc →
  cell (used_ptrs full_table) loc = Some c → 0 < c ≤ INT_MAX - 2.
Proof.
  intros Hs Hl Hc. assert (slot = 0) as -> by lia.
  injection Hl as <-. injection Hc as <-. vm_compute. intuition discriminate.
Qed.

Lemma insert_into_full_table_fails_witness :
  (1 ≤ 1 ≤ INT_MAX ∧ 0 ≤ 1 ∧ 1 / 1 + 1 ≤ INT_MAX) ∧
  HashMap_new 1 1 = Some (table 1 1) ∧ reachable (table 1 1) full_table ∧
  (∀ slot loc c, 0 ≤ slot < 1 → locate_slot full_table slot = Some loc →
     cell (used_ptrs full_table) loc = Some c → 0 < c ≤ INT_MAX - 2) ∧
  ∃ h' tr, insert (zpair 6 60) full_table = Done false h' tr.
Proof.
  split; [vm_compute; intuition discriminate|].
  split; [reflexivity|]. split; [exists first_insert; exact full_table_history|].
  split; [exact full_table_is_full|].
  apply (insert_into_full_table_fails 1 1 (table 1 1) full_table (zpair 6 60)).
  - vm_compute; intuition discriminate.
  - lia.
  - vm_compute; discriminate.
  - reflexivity.
  - exists first_insert; exact full_table_history.
  - exact full_table_is_full.
Defined.

Lemma first_insert_requests loc : fetch_adds_on loc first_insert ≤ 2 ^ 32.
Proof. simpl. case_bool_decide; lia. Qed.

Lemma records_written_once_witness :
  HashMap_new 1 1 = Some (table 1 1) ∧ history (table 1 1) first_insert full_table ∧
  (∀ loc, fetch_adds_on loc first_insert ≤ 2 ^ 32) ∧
  NoDup (rputs first_insert).*1.
Proof.
  split; [reflexivity|]. split; [exact full_table_history|].
  split; [exact first_insert_requests|].
  apply (records_written_once 1 1 (table 1 1) full_table first_insert).
  - reflexivity.
  - exact full_table_history.
  - exact first_insert_requests.
Defined.



Lemma operations_keep_the_shape_witness :
  exec (Insert (zpair 5 50)) (table 1 1) = Done tt full_table first_insert ∧
  (my_size full_table = my_size (table 1 1) ∧
   slots_per_rank full_table = slots_per_rank (table 1 1) ∧
   length <$> used_ptrs full_table = length <$> used_ptrs (table 1 1) ∧
   length <$> data_ptrs full_table = length <$> data_ptrs (table 1 1)).
Proof.
  split; [reflexivity|].
  apply (operations_keep_the_shape (Insert (zpair 5 50)) (table 1 1) full_table first_insert).
  reflexivity.
Defined.

End Examples.
